(** * Password strength / wordlist tool: the wordlist generator

    A shallow embedding of [password_strength_wordlist_tool.py]
    (functions [leetspeak_variants], [word_variants], [generate_wordlist])
    and the properties of the candidate-generation pipeline.

    Python values are modelled as follows.
    - [str] is [string]; a character [c] of a [for c in word] loop is the
      one-character string it is in Python.
    - [set] of [str] is [gset string].  The order in which Python iterates a
      set ([list(s)], [for x in s]) is not fixed by the set's contents (it
      depends on the per-process string hash seed), so it is a field of the
      runtime below: any enumeration of the elements.
    - [int] is [Z].
    - Builtins whose definition is not part of the program ([str.lower],
      [str.upper], [str.title], [int(...)]) are fields of the runtime too. *)

From Stdlib Require Import ZArith DecimalString Ascii.
From stdpp Require Import gmap strings list sorting.


(** ** The Python runtime the program runs on *)

Class PyRuntime := {
  str_lower : string → string;
  str_upper : string → string;
  str_title : string → string;
  (** [int(s)]: [None] stands for [ValueError]. *)
  py_int : string → option Z;
  (** [list(s)] for a set [s]. *)
  set_iter : gset string → list string;
  set_iter_perm : ∀ X, set_iter X ≡ₚ elements X
}.

(** ** Builtins with a fixed meaning *)

(** [for c in word]: the characters of a string, each as a string. *)
Fixpoint chars (word : string) : list string :=
  match word with
  | EmptyString => []
  | String a rest => String a EmptyString :: chars rest
  end.

(** [str(y)] / [f"{y}"] for an [int]. *)
Definition str_of_int (y : Z) : string := NilZero.string_of_int (Z.to_int y).

(** [range(a, b)]. *)
Definition range (a b : Z) : list Z :=
  (λ i : nat, (a + Z.of_nat i)%Z) <$> seq 0 (Z.to_nat (b - a)).

(** [l[:m]]: a negative [m] counts from the end. *)
Definition slice_to {A} (l : list A) (m : Z) : list A :=
  if decide (0 ≤ m)%Z then take (Z.to_nat m) l
  else take (Z.to_nat (Z.of_nat (length l) + m)) l.

(** [s.split(sep)] for a one-character separator: the pieces between the
    occurrences of [sep], always at least one piece. *)
Fixpoint split_go (sep : ascii) (cur : string) (s : string) : list string :=
  match s with
  | EmptyString => [String.rev cur]
  | String a rest =>
      if decide (a = sep) then String.rev cur :: split_go sep EmptyString rest
      else split_go sep (String a cur) rest
  end.
Definition str_split (sep : ascii) (s : string) : list string :=
  split_go sep EmptyString s.

(** [sorted(xs)] on strings: ascending by code point, lexicographically. *)
Definition sorted (xs : list string) : list string := merge_sort String.le xs.

(** [itertools.permutations(l, r)]: the [r]-length orderings of the positions
    of [l], in lexicographic order of the positions. *)
Fixpoint selections {A} (l : list A) : list (A * list A) :=
  match l with
  | [] => []
  | x :: rest => (x, rest) :: (prod_map id (cons x) <$> selections rest)
  end.

Fixpoint permutations {A} (l : list A) (r : nat) : list (list A) :=
  match r with
  | 0 => [[]]
  | S r' => selections l ≫= λ '(x, rest), cons x <$> permutations rest r'
  end.

(** ** Command-line arguments and effects *)

(** The [argparse] namespace of the [generate] subcommand.  An option that
    was not given is [None]; [--max-size] has an integer default. *)
Record Args := {
  arg_name : option string;
  arg_pet : option string;
  arg_birth : option string;
  arg_keyword : option string;
  arg_years : option string;
  arg_leet : bool;
  arg_append_years : bool;
  arg_max_size : Z;
  arg_out : option string
}.

(** Truth value of an optional string: [None] and [""] are falsy. *)
Definition truthy (val : option string) : bool :=
  match val with
  | Some (String _ _) => true
  | _ => false
  end.

(** The lines the program prints. *)
Inductive Msg :=
  | NoInputs                              (* "No inputs provided ..." *)
  | InvalidYearRange                      (* "Invalid year range; ..." *)
  | GeneratingVariants (base : list string)
  | Generated (n : nat) (out_path : string).

(** Standard output and the files written so far. *)
Record World := {
  stdout : list Msg;
  files : gmap string string
}.

Definition IO (A : Type) : Type := World → A * World.

Global Instance IO_ret : MRet IO := λ A x w, (x, w).
Global Instance IO_bind : MBind IO := λ A B f m w, let '(x, w') := m w in f x w'.

Definition print (m : Msg) : IO unit :=
  λ w, (tt, {| stdout := stdout w ++ [m]; files := files w |}).

(** [open(path, 'w')] followed by writes that amount to [text]. *)
Definition write_file (path text : string) : IO unit :=
  λ w, (tt, {| stdout := stdout w; files := <[path := text]> (files w) |}).

(** The world after running [m]. *)
Definition exec {A} (m : IO A) (w : World) : World := (m w).2.

Definition newline : string := String (ascii_of_nat 10) EmptyString.

(** ** Vocabulary of the properties *)

(** The product of a list of numbers. *)
Definition product (ns : list nat) : nat := foldr Nat.mul 1 ns.

(** [falling n r] is [n * (n-1) * ... * (n-r+1)], the number of ways to line
    up [r] out of [n] things. *)
Fixpoint falling (n r : nat) : nat :=
  match r with
  | 0 => 1
  | S r' => n * falling (n - 1) r'
  end.

(** A string of exactly one character. *)
Definition one_char (s : string) : Prop := String.length s = 1.

(** A text file read as lines: every line followed by a newline. *)
Definition unlines (lines : list string) : string :=
  foldr (λ line rest, line +:+ newline +:+ rest) "" lines.

(** Whether the character [a] occurs in [s]. *)
Fixpoint has_char (a : ascii) (s : string) : bool :=
  match s with
  | EmptyString => false
  | String b rest => bool_decide (b = a) || has_char a rest
  end.

(** The same arguments with another [--years]. *)
Definition with_years (years : option string) (args : Args) : Args :=
  {| arg_name := arg_name args; arg_pet := arg_pet args;
     arg_birth := arg_birth args; arg_keyword := arg_keyword args;
     arg_years := years;
     arg_leet := arg_leet args; arg_append_years := arg_append_years args;
     arg_max_size := arg_max_size args; arg_out := arg_out args |}.

(** Nothing printed, nothing written. *)
Definition empty_world : World := {| stdout := []; files := ∅ |}.

(** ** LeetExpander *)

Definition LEET_MAP : gmap string (list string) :=
  list_to_map
    [ ("a", ["a"; "@"; "4"]);
      ("e", ["e"; "3"]);
      ("i", ["i"; "1"; "!"]);
      ("o", ["o"; "0"]);
      ("s", ["s"; "$"; "5"]);
      ("t", ["t"; "7"]) ].

Section program.
Context `{!PyRuntime}.

(** [LEET_MAP.get(c.lower(), [c])] *)
Definition leet_choices (c : string) : list string :=
  default [c] (LEET_MAP !! str_lower c).

Definition leet_step (variants : list string) (c : string) : list string :=
  variants ≫= λ p, (λ ch, p +:+ ch) <$> leet_choices c.

Definition leet_list (word : string) : list string :=
  foldl leet_step [""] (chars word).

Definition leetspeak_variants (word : string) : gset string :=
  list_to_set (leet_list word).

(** The alternative set of a character: the choices the expander has for it. *)
Definition alternatives (c : string) : gset string :=
  list_to_set (leet_choices c).

(** ** VariantPool builder, Combiner and YearAugmenter: [word_variants] *)

Definition default_separators : list string := [""; "_"; "-"; "."; "@"].

(** [{w, w.lower(), w.title(), w.upper()}] *)
Definition case_variants (w : string) : gset string :=
  {[ w; str_lower w; str_title w; str_upper w ]}.

(** One round of the loop over [base_words]. *)
Definition pool_step (leet : bool) (variants : gset string) (w : string)
  : gset string :=
  let local := case_variants w in
  let local :=
    if leet then local ∪ ⋃ (leetspeak_variants <$> set_iter local) else local in
  variants ∪ local.

Definition variant_pool (base_words : list string) (leet : bool) : gset string :=
  foldl (pool_step leet) ∅ base_words.

(** The strings handed to [results.add], in the order of the three nested
    loops over [combo_len], [combo] and [sep]. *)
Definition combined (variants : gset string) (separators : list string)
  : list string :=
  seq 1 (min 3 (size variants)) ≫= λ combo_len,
  permutations (set_iter variants) combo_len ≫= λ combo,
  (λ sep, String.concat sep combo) <$> separators.

Definition combiner (variants : gset string) (separators : list string)
  : gset string :=
  list_to_set (combined variants separators).

(** The strings added by the loop over [list(results)] and [years]. *)
Definition year_forms (results : gset string) (years : list Z) : list string :=
  set_iter results ≫= λ r,
  years ≫= λ y, [r +:+ str_of_int y; str_of_int y +:+ r].

(** [if append_years and years: ...]; [None] and the empty list are falsy. *)
Definition augment (results : gset string) (years : option (list Z))
    (append_years : bool) : gset string :=
  match append_years, years with
  | true, Some (y :: ys) => results ∪ list_to_set (year_forms results (y :: ys))
  | _, _ => results
  end.

Definition word_variants (base_words : list string) (years : option (list Z))
    (leet append_years : bool) (separators : option (list string))
  : gset string :=
  let separators := default default_separators separators in
  let variants := variant_pool base_words leet in
  let results := combiner variants separators in
  augment results years append_years.

(** ** Capper and emission: [generate_wordlist] *)

(** [if args.max_size and len(wl) > args.max_size:
       wl = set(list(wl)[:args.max_size])] *)
Definition capper (wl : gset string) (max_size : Z) : gset string :=
  if bool_decide (max_size ≠ 0%Z) && bool_decide (max_size < Z.of_nat (size wl))%Z
  then list_to_set (slice_to (set_iter wl) max_size)
  else wl.

(** What the loop [for w in sorted(wl): f.write(w + '\n')] leaves in a file
    opened for writing. *)
Definition wordlist_text (wl : gset string) : string :=
  foldl (λ content w, content +:+ (w +:+ newline)) "" (sorted (set_iter wl)).

(** [if val: base.append(str(val))] over name, pet, birth, keyword. *)
Definition base_of (args : Args) : list string :=
  foldl (λ base val, if truthy val then (base ++ [default "" val])%list else base)
    [] [arg_name args; arg_pet args; arg_birth args; arg_keyword args].

(** [start, end = map(int, s.split('-')); list(range(start, end+1))];
    [None] stands for any exception raised in the [try] block. *)
Definition parse_years (s : string) : option (list Z) :=
  match str_split "-"%char s with
  | [a; b] =>
      start ← py_int a;
      end_ ← py_int b;
      Some (range start (end_ + 1))
  | _ => None
  end.

Definition read_years (args : Args) : IO (list Z) :=
  if truthy (arg_years args) then
    match parse_years (default "" (arg_years args)) with
    | Some years => mret years
    | None => print InvalidYearRange;; mret []
    end
  else mret [].

Definition out_path_of (args : Args) : string :=
  if truthy (arg_out args) then default "" (arg_out args) else "wordlist.txt".

(** The word set of a run that gets past the seed check, given its years. *)
Definition wordlist_of (args : Args) (years : list Z) : gset string :=
  let wl :=
    word_variants (base_of args)
      (if arg_append_years args then Some years else None)
      (arg_leet args) (arg_append_years args) None in
  capper wl (arg_max_size args).

Definition generate_wordlist (args : Args) : IO unit :=
  let base := base_of args in
  if bool_decide (base = []) then print NoInputs
  else
    years ← read_years args;
    print (GeneratingVariants base);;
    let wl := wordlist_of args years in
    let out_path := out_path_of args in
    write_file out_path (wordlist_text wl);;
    print (Generated (size wl) out_path).

(** The year list a run works with: the value [read_years] returns. *)
Definition years_of (args : Args) : list Z :=
  if truthy (arg_years args)
  then default [] (parse_years (default "" (arg_years args)))
  else [].

(** The capped candidate set of a run without any year forms. *)
Definition plain_wordlist (args : Args) : gset string :=
  capper (combiner (variant_pool (base_of args) (arg_leet args))
            default_separators)
         (arg_max_size args).

End program.

(** ** A concrete runtime for ASCII text

    On ASCII strings the functions below compute what CPython computes: the
    case mappings touch the letters [A-Z] and [a-z] only, and [ascii_int]
    reads a non-empty run of decimal digits and rejects every other string
    made of letters, digits and punctuation.  (CPython's [int] also takes
    surrounding white space, a sign and underscores between digits; no
    string of that shape is evaluated with this instance.)  Two iteration
    orders are provided, as two runs with different hash seeds would have. *)

Module Import AsciiText.

Definition is_upper (a : ascii) : bool :=
  (65 <=? nat_of_ascii a) && (nat_of_ascii a <=? 90).
Definition is_lower (a : ascii) : bool :=
  (97 <=? nat_of_ascii a) && (nat_of_ascii a <=? 122).
Definition to_lower (a : ascii) : ascii :=
  if is_upper a then ascii_of_nat (nat_of_ascii a + 32) else a.
Definition to_upper (a : ascii) : ascii :=
  if is_lower a then ascii_of_nat (nat_of_ascii a - 32) else a.

Fixpoint map_chars (f : ascii → ascii) (s : string) : string :=
  match s with
  | EmptyString => EmptyString
  | String a rest => String (f a) (map_chars f rest)
  end.

Definition ascii_lower : string → string := map_chars to_lower.
Definition ascii_upper : string → string := map_chars to_upper.

(** [str.title]: a letter that follows a letter is lowered, any other
    letter is raised. *)
Fixpoint title_go (after_letter : bool) (s : string) : string :=
  match s with
  | EmptyString => EmptyString
  | String a rest =>
      if is_upper a || is_lower a
      then String (if after_letter then to_lower a else to_upper a)
                  (title_go true rest)
      else String a (title_go false rest)
  end.
Definition ascii_title : string → string := title_go false.

Fixpoint digits_go (acc : Z) (s : string) : option Z :=
  match s with
  | EmptyString => Some acc
  | String a rest =>
      let n := nat_of_ascii a in
      if (48 <=? n) && (n <=? 57)
      then digits_go (10 * acc + Z.of_nat (n - 48))%Z rest
      else None
  end.
Definition ascii_int (s : string) : option Z :=
  match s with
  | EmptyString => None
  | _ => digits_go 0 s
  end.

End AsciiText.

Definition ascending_runtime : PyRuntime := {|
  str_lower := ascii_lower;
  str_upper := ascii_upper;
  str_title := ascii_title;
  py_int := ascii_int;
  set_iter := elements;
  set_iter_perm := λ X, reflexivity (elements X)
|}.

Definition descending_runtime : PyRuntime := {|
  str_lower := ascii_lower;
  str_upper := ascii_upper;
  str_title := ascii_title;
  py_int := ascii_int;
  set_iter := λ X, reverse (elements X);
  set_iter_perm := λ X, reverse_Permutation (elements X)
|}.

(** ** Sample runs

    Arguments of a few command lines, evaluated with the runtime above. *)

(** [generate --name Max --years 2020-2021 --append-years] *)
Definition args_max : Args := {|
  arg_name := Some "Max"; arg_pet := None; arg_birth := None;
  arg_keyword := None; arg_years := Some "2020-2021";
  arg_leet := false; arg_append_years := true;
  arg_max_size := 5000; arg_out := None |}.

(** [generate --years 1990-2025 --append-years --out list.txt] *)
Definition args_no_seed : Args := {|
  arg_name := None; arg_pet := None; arg_birth := None;
  arg_keyword := None; arg_years := Some "1990-2025";
  arg_leet := false; arg_append_years := true;
  arg_max_size := 5000; arg_out := Some "list.txt" |}.

(** [generate --years abc --append-years] *)
Definition args_no_seed_bad_years : Args := with_years (Some "abc") args_no_seed.

(** [generate --name Max --years 2025-1990 --append-years] *)
Definition args_reversed : Args := with_years (Some "2025-1990") args_max.

(** [generate --name Max --years abc --append-years] *)
Definition args_bad_years : Args := with_years (Some "abc") args_max.

(** [generate --name Max --years= --append-years]: an empty year range *)
Definition args_blank_years : Args := with_years (Some "") args_max.

Definition abc : gset string := {[ "a"; "b"; "c" ]}.

(** ** Vocabulary of the further properties *)

Section vocabulary.
Context `{!PyRuntime}.

(** [v] picks, at every position, one of the choices for the character of
    the word at that position. *)
Definition pointwise_choice (v word : string) : Prop :=
  Forall2 (λ ch c, ch ∈ leet_choices c) (chars v) (chars word).

End vocabulary.

(** Two runtimes with the same case mappings; their iteration orders and
    their [int] may differ. *)
Definition same_case_mappings (R1 R2 : PyRuntime) : Prop :=
  ∀ s, @str_lower R1 s = @str_lower R2 s
       ∧ @str_title R1 s = @str_title R2 s
       ∧ @str_upper R1 s = @str_upper R2 s.

(** Two runtimes whose [int] agrees. *)
Definition same_int (R1 R2 : PyRuntime) : Prop :=
  ∀ s, @py_int R1 s = @py_int R2 s.

(** The case mappings of the runtime never turn a non-empty string into the
    empty one (as is the case for CPython's). *)
Definition keeps_nonempty (R : PyRuntime) : Prop :=
  ∀ s, s ≠ "" →
    @str_lower R s ≠ "" ∧ @str_title R s ≠ "" ∧ @str_upper R s ≠ "".

(** How often the character [a] occurs in [s]. *)
Fixpoint count_char (a : ascii) (s : string) : nat :=
  match s with
  | EmptyString => 0
  | String b rest => (if decide (b = a) then 1 else 0) + count_char a rest
  end.

(** ** Password analysis: [entropy] and the strength label

    The character tests [str.islower], [str.isupper] and [str.isdigit] are
    builtins, taken as parameters like the case mappings.  [entropy] ends in
    floating point: [round(math.log2(charset ** len(password)), 2)].  The
    model keeps the exact integer [charset ** len(password)] and leaves the
    rounded logarithm to a parameter where a number is needed. *)

From Stdlib Require QArith.

Class CharClasses := {
  str_islower : string → bool;
  str_isupper : string → bool;
  str_isdigit : string → bool
}.

(** The punctuation literal of [entropy]; character 34 is the double quote. *)
Definition PUNCTUATION : string :=
  "!@#$%^&*()_+-=[]{}|;:'" +:+ String (ascii_of_nat 34) ",.<>/?".

(** [c in PUNCTUATION] for a character [c]. *)
Definition is_punctuation (c : string) : bool :=
  bool_decide (c ∈ chars PUNCTUATION).

(** [any(test(c) for c in password)] *)
Definition any_char (test : string → bool) (password : string) : bool :=
  existsb test (chars password).

(** What [entropy] returns: the integer 0, or the rounded binary logarithm
    of [keyspace]. *)
Inductive Entropy :=
  | ZeroBits
  | RoundedLog2 (keyspace : Z).

Inductive Strength := VeryWeak | Weak | Reasonable | Strong | VeryStrong.

Definition strength_rank (s : Strength) : nat :=
  match s with
  | VeryWeak => 0 | Weak => 1 | Reasonable => 2 | Strong => 3 | VeryStrong => 4
  end.

(** [e < n] for a number [e] and an integer literal [n]. *)
Definition below (e : QArith_base.Q) (n : Z) : bool :=
  negb (QArith_base.Qle_bool (QArith_base.inject_Z n) e).

(** The [if e < 28: ... elif e < 36: ...] chain of [analyze_password]. *)
Definition strength_label (e : QArith_base.Q) : Strength :=
  if below e 28 then VeryWeak
  else if below e 36 then Weak
  else if below e 60 then Reasonable
  else if below e 128 then Strong
  else VeryStrong.

Section analysis.
Context `{!CharClasses}.

Definition charset (password : string) : nat :=
  let charset := 0 in
  let charset :=
    if any_char str_islower password then charset + 26 else charset in
  let charset :=
    if any_char str_isupper password then charset + 26 else charset in
  let charset :=
    if any_char str_isdigit password then charset + 10 else charset in
  let charset :=
    if any_char is_punctuation password then charset + 32 else charset in
  charset.

Definition entropy (password : string) : Entropy :=
  if charset password =? 0 then ZeroBits
  else RoundedLog2 (Z.of_nat (charset password)
                    ^ Z.of_nat (String.length password)).

(** [log2_round2 n] stands for [round(math.log2(n), 2)]. *)
Definition entropy_bits (log2_round2 : Z → QArith_base.Q) (e : Entropy)
  : QArith_base.Q :=
  match e with
  | ZeroBits => QArith_base.inject_Z 0
  | RoundedLog2 keyspace => log2_round2 keyspace
  end.

(** The strength line [analyze_password] prints for a password. *)
Definition analyze_label (log2_round2 : Z → QArith_base.Q) (password : string)
  : Strength :=
  strength_label (entropy_bits log2_round2 (entropy password)).

(** A character of none of the four classes. *)
Definition unclassified (c : string) : Prop :=
  str_islower c = false ∧ str_isupper c = false ∧ str_isdigit c = false
  ∧ is_punctuation c = false.

End analysis.

(** The character classes on ASCII text. *)
Definition ascii_classes : CharClasses := {|
  str_islower := λ c, match c with
                      | String a EmptyString => AsciiText.is_lower a
                      | _ => false
                      end;
  str_isupper := λ c, match c with
                      | String a EmptyString => AsciiText.is_upper a
                      | _ => false
                      end;
  str_isdigit := λ c, match c with
                      | String a EmptyString =>
                          (48 <=? nat_of_ascii a) && (nat_of_ascii a <=? 57)
                      | _ => false
                      end
|}.

(** [generate --name $'b\na']: a seed of two lines *)
Definition args_newline_seed : Args := {|
  arg_name := Some ("b" +:+ newline +:+ "a"); arg_pet := None;
  arg_birth := None; arg_keyword := None; arg_years := None;
  arg_leet := false; arg_append_years := false;
  arg_max_size := 5000; arg_out := None |}.

(** [generate --name Max --years 2020-2021]: years without
    [--append-years] *)
Definition args_years_only : Args := {|
  arg_name := Some "Max"; arg_pet := None; arg_birth := None;
  arg_keyword := None; arg_years := Some "2020-2021";
  arg_leet := false; arg_append_years := false;
  arg_max_size := 5000; arg_out := None |}.

(** * Properties *)

(** ** Generic facts about strings and list comprehensions *)

Lemma string_length_app (s t : string) :
  String.length (s +:+ t) = String.length s + String.length t.
Proof. induction s as [|a s IH]; simpl; [done | by rewrite IH]. Qed.

Lemma string_app_inj_length (s1 s2 t1 t2 : string) :
  String.length s1 = String.length s2 →
  s1 +:+ t1 = s2 +:+ t2 → s1 = s2 ∧ t1 = t2.
Proof.
  revert s2. induction s1 as [|a s1 IH]; intros [|b s2] Hlen Heq;
    simplify_eq/=; [done|].
  by destruct (IH s2) as [-> ->].
Qed.

Lemma length_bind_const {A B} (f : A → list B) (l : list A) (n : nat) :
  (∀ x, x ∈ l → length (f x) = n) → length (l ≫= f) = length l * n.
Proof.
  induction l as [|x l IH]; intros Hf; [done|].
  rewrite bind_cons, length_app, IH, Hf; [simpl; lia | left | ].
  intros y Hy. apply Hf. by right.
Qed.

Lemma length_bind_sum {A B} (f : A → list B) (l : list A) :
  length (l ≫= f) = sum_list ((λ x, length (f x)) <$> l).
Proof.
  induction l as [|x l IH]; [done|].
  by rewrite bind_cons, length_app, IH.
Qed.

Lemma selections_spec {A} (l : list A) :
  length (selections l) = length l
  ∧ ∀ x rest, (x, rest) ∈ selections l → length rest = length l - 1.
Proof.
  induction l as [|a l [IHlen IHrest]]; simpl.
  - split; [done|]. intros x rest Hx. by apply elem_of_nil in Hx.
  - split; [by rewrite length_fmap, IHlen|].
    intros x rest Hx. apply elem_of_cons in Hx as [Hx|Hx].
    + simplify_eq. lia.
    + apply list_elem_of_fmap in Hx as ([y rest'] & Heq & Hy).
      simplify_eq/=. apply IHrest in Hy as Hlen.
      destruct l; [by apply elem_of_nil in Hy | simpl in *; lia].
Qed.

Lemma elem_of_selections {A} (l : list A) x :
  x ∈ l → ∃ rest, (x, rest) ∈ selections l.
Proof.
  induction l as [|a l IH]; intros Hx; [by apply elem_of_nil in Hx|].
  apply elem_of_cons in Hx as [->|Hx]; simpl.
  - exists l. left.
  - destruct (IH Hx) as [rest Hrest]. exists (a :: rest). right.
    apply list_elem_of_fmap. by exists (x, rest).
Qed.

Lemma length_permutations {A} r : ∀ l : list A,
  length (permutations l r) = falling (length l) r.
Proof.
  induction r as [|r IH]; intros l; [done|]. simpl.
  destruct (selections_spec l) as [Hlen Hrest].
  rewrite (length_bind_const _ _ (falling (length l - 1) r)).
  - by rewrite Hlen.
  - intros [x rest] Hx. by rewrite length_fmap, IH, (Hrest x rest Hx).
Qed.

Lemma singleton_permutation {A} (l : list A) x :
  x ∈ l → [x] ∈ permutations l 1.
Proof.
  intros Hx. destruct (elem_of_selections l x Hx) as [rest Hrest]. simpl.
  apply list_elem_of_bind. exists (x, rest). split; [left | done].
Qed.

Lemma size_list_to_set_le (l : list string) :
  size (list_to_set (C:=gset string) l) ≤ length l.
Proof.
  induction l as [|x l IH].
  - change (size (∅ : gset string) ≤ 0). by rewrite size_empty.
  - change (size ({[x]} ∪ list_to_set (C:=gset string) l) ≤ S (length l)).
    rewrite size_union_alt, size_singleton.
    assert (size (list_to_set (C:=gset string) l ∖ {[x]})
            ≤ size (list_to_set (C:=gset string) l)); [|lia].
    apply subseteq_size, subseteq_difference_l. done.
Qed.


Section properties.
Context `{!PyRuntime}.

(** ** LeetExpander *)

Lemma chars_one_char word : Forall one_char (chars word).
Proof. induction word; constructor; done. Qed.

Lemma LEET_MAP_entries k v :
  LEET_MAP !! k = Some v → NoDup v ∧ Forall one_char v.
Proof.
  intros Hk. apply elem_of_list_to_map_2 in Hk.
  repeat (apply elem_of_cons in Hk as [Hk|Hk];
    [ simplify_eq; split; [ apply (bool_decide_unpack _); by vm_compute
                         | by repeat constructor ] | ]).
  by apply elem_of_nil in Hk.
Qed.

Lemma leet_choices_spec c :
  one_char c → NoDup (leet_choices c) ∧ Forall one_char (leet_choices c).
Proof.
  intros Hc. unfold leet_choices.
  destruct (LEET_MAP !! str_lower c) as [v|] eqn:Hv; simpl.
  - by apply LEET_MAP_entries in Hv.
  - split; [apply NoDup_singleton | by repeat constructor].
Qed.

Lemma size_alternatives c :
  one_char c → size (alternatives c) = length (leet_choices c).
Proof. intros Hc. apply size_list_to_set, leet_choices_spec, Hc. Qed.

Lemma length_leet_step variants c :
  length (leet_step variants c) = length variants * length (leet_choices c).
Proof.
  apply length_bind_const. intros p _. by rewrite length_fmap.
Qed.

Lemma leet_step_invariant n variants c :
  one_char c →
  NoDup variants → Forall (λ p, String.length p = n) variants →
  NoDup (leet_step variants c)
  ∧ Forall (λ p, String.length p = S n) (leet_step variants c).
Proof.
  intros Hc Hnd Hlen. destruct (leet_choices_spec c Hc) as [Hcnd Hc1].
  rewrite Forall_forall in Hlen, Hc1. split.
  - apply NoDup_bind; [| |done].
    + intros p1 p2 y Hp1 Hp2 Hy1 Hy2.
      apply list_elem_of_fmap in Hy1 as (ch1 & -> & _).
      apply list_elem_of_fmap in Hy2 as (ch2 & Heq & _).
      apply string_app_inj_length in Heq as [? _]; [done|].
      by rewrite (Hlen p1), (Hlen p2).
    + intros p _. apply NoDup_fmap_2; [|done]. apply String.app_inj.
  - apply Forall_forall. intros s Hs.
    apply list_elem_of_bind in Hs as (p & Hs & Hp).
    apply list_elem_of_fmap in Hs as (ch & -> & Hch).
    rewrite string_length_app, (Hlen p Hp), (Hc1 ch Hch). unfold one_char. lia.
Qed.

Lemma leet_fold_spec cs : ∀ n variants,
  Forall one_char cs →
  NoDup variants → Forall (λ p, String.length p = n) variants →
  NoDup (foldl leet_step variants cs)
  ∧ length (foldl leet_step variants cs)
    = length variants * product ((λ c, length (leet_choices c)) <$> cs).
Proof.
  induction cs as [|c cs IH]; intros n variants Hcs Hnd Hlen; simpl.
  - split; [done | lia].
  - apply Forall_cons in Hcs as [Hc Hcs].
    destruct (leet_step_invariant n variants c Hc Hnd Hlen) as [Hnd' Hlen'].
    destruct (IH (S n) _ Hcs Hnd' Hlen') as [? ->].
    split; [done|]. rewrite length_leet_step. symmetry. apply Nat.mul_assoc.
Qed.

Lemma leet_list_spec word :
  NoDup (leet_list word)
  ∧ length (leet_list word)
    = product ((λ c, size (alternatives c)) <$> chars word).
Proof.
  destruct (leet_fold_spec (chars word) 0 [""]) as [Hnd Hlen].
  - apply chars_one_char.
  - apply NoDup_singleton.
  - by repeat constructor.
  - split; [done|]. unfold leet_list. rewrite Hlen. simpl.
    rewrite Nat.add_0_r. f_equal. apply Forall_fmap_ext_1.
    eapply Forall_impl; [apply chars_one_char|].
    intros c Hc. symmetry. by apply size_alternatives.
Qed.

(** C2. The set returned by [leetspeak_variants] has as many elements as the
    product, over the characters of the word, of the sizes of their
    alternative sets; a character whose lower-case form is not a key of
    [LEET_MAP] has itself as its only alternative; and the empty word
    expands to the set that holds just the empty string. *)
Theorem leetspeak_variants_size (word : string) :
  size (leetspeak_variants word)
    = product ((λ c, size (alternatives c)) <$> chars word)
  ∧ (∀ c, LEET_MAP !! str_lower c = None → alternatives c = {[ c ]})
  ∧ leetspeak_variants "" = {[ "" ]}.
Proof.
  destruct (leet_list_spec word) as [Hnd Hlen]. split; [|split].
  - unfold leetspeak_variants. by rewrite size_list_to_set.
  - intros c Hc. unfold alternatives, leet_choices. rewrite Hc.
    exact (right_id_L (∅ : gset string) (∪) {[ c ]}).
  - exact (right_id_L (∅ : gset string) (∪) {[ "" ]}).
Qed.

(** ** Combiner *)

Lemma length_set_iter (X : gset string) : length (set_iter X) = size X.
Proof. by rewrite set_iter_perm. Qed.

Lemma elem_of_set_iter (X : gset string) x : x ∈ set_iter X ↔ x ∈ X.
Proof. by rewrite set_iter_perm, elem_of_elements. Qed.

Lemma NoDup_set_iter (X : gset string) : NoDup (set_iter X).
Proof. rewrite set_iter_perm. apply NoDup_elements. Qed.

Lemma length_combined_len variants separators combo_len :
  length (permutations (set_iter variants) combo_len ≫= λ combo,
          (λ sep, String.concat sep combo) <$> separators)
  = falling (size variants) combo_len * length separators.
Proof.
  rewrite (length_bind_const _ _ (length separators)).
  - by rewrite length_permutations, length_set_iter.
  - intros combo _. by rewrite length_fmap.
Qed.

Lemma length_combined variants separators :
  let k := size variants in
  let s := length separators in
  length (combined variants separators)
  = s * (k + k * (k - 1) + k * (k - 2) * (k - 1)).
Proof.
  intros k s. unfold combined. rewrite length_bind_sum.
  erewrite list_fmap_ext by (intros; apply length_combined_len).
  fold s.
  fold k. destruct k as [|[|[|k']]]; simpl; lia.
Qed.

Lemma selections_elem_of {A} (l : list A) x rest :
  (x, rest) ∈ selections l → x ∈ l.
Proof.
  revert rest. induction l as [|a l IH]; intros rest Hx;
    [by apply elem_of_nil in Hx|].
  apply elem_of_cons in Hx as [Hx|Hx]; [simplify_eq; left|].
  apply list_elem_of_fmap in Hx as ([y rest'] & Heq & Hy).
  simplify_eq/=. right. by eapply IH.
Qed.

Lemma singles_in_pool variants separators x :
  x ∈ (permutations (set_iter variants) 1 ≫= λ combo,
       (λ sep, String.concat sep combo) <$> separators) →
  x ∈ variants.
Proof.
  intros Hx. apply list_elem_of_bind in Hx as (combo & Hx & Hcombo).
  apply list_elem_of_fmap in Hx as (sep & -> & _).
  apply list_elem_of_bind in Hcombo as ([y rest] & Hcombo & Hy).
  apply list_elem_of_fmap in Hcombo as (tl & -> & Htl).
  apply list_elem_of_singleton in Htl as ->.
  by eapply elem_of_set_iter, selections_elem_of.
Qed.

Lemma size_combiner_tight variants separators :
  let k := size variants in
  let s := length separators in
  size (combiner variants separators)
  ≤ k + s * (k * (k - 1) + k * (k - 2) * (k - 1)).
Proof.
  intros k s. unfold combiner, combined.
  destruct (decide (k = 0)) as [Hk|Hk].
  { fold k. rewrite Hk. change (size (∅ : gset string) ≤ 0 + s * 0).
    rewrite size_empty. lia. }
  replace (seq 1 (3 `min` size variants))
    with (1 :: seq 2 (3 `min` k - 1))
    by (fold k; destruct k as [|[|[|k']]]; done).
  rewrite bind_cons, list_to_set_app_L, size_union_alt.
  apply Nat.add_le_mono.
  - apply subseteq_size. intros x Hx.
    apply elem_of_list_to_set in Hx. by eapply singles_in_pool.
  - etrans; [apply subseteq_size, subseteq_difference_l; reflexivity|].
    etrans; [apply size_list_to_set_le|].
    rewrite length_bind_sum.
    erewrite list_fmap_ext by (intros; apply length_combined_len).
    fold k s. destruct k as [|[|[|k']]]; simpl; lia.
Qed.

(** C1. For a pool of size k and s separators the Combiner joins exactly
    s * (k + k*(k-1) + k*(k-2)*(k-1)) permutation/separator pairs (the terms
    of unavailable lengths vanish when k < 3), so the candidate set has at
    most that many elements; as a single element joins to itself under every
    separator, it has at most k + s * (k*(k-1) + k*(k-2)*(k-1)). *)
Theorem combiner_size (variants : gset string) (separators : list string) :
  let k := size variants in
  let s := length separators in
  length (combined variants separators)
    = s * (k + k * (k - 1) + k * (k - 2) * (k - 1))
  ∧ size (combiner variants separators)
    ≤ s * (k + k * (k - 1) + k * (k - 2) * (k - 1))
  ∧ size (combiner variants separators)
    ≤ k + s * (k * (k - 1) + k * (k - 2) * (k - 1)).
Proof.
  intros k s. split; [apply length_combined|]. split.
  - pose proof (length_combined variants separators) as Hlen.
    cbv zeta in Hlen. unfold k, s, combiner. rewrite <- Hlen.
    apply size_list_to_set_le.
  - apply size_combiner_tight.
Qed.

(** ** VariantPool builder *)

Lemma pool_step_mono leet variants w : variants ⊆ pool_step leet variants w.
Proof. unfold pool_step. apply union_subseteq_l. Qed.

Lemma pool_step_case_variants leet variants w :
  case_variants w ⊆ pool_step leet variants w.
Proof.
  unfold pool_step. destruct leet.
  - etrans; [apply union_subseteq_l | apply union_subseteq_r].
  - apply union_subseteq_r.
Qed.

Lemma foldl_pool_step_mono leet ws : ∀ variants,
  variants ⊆ foldl (pool_step leet) variants ws.
Proof.
  induction ws as [|w ws IH]; intros variants; [done|]. simpl.
  etrans; [apply (pool_step_mono leet variants w) | apply IH].
Qed.

Lemma foldl_pool_step_case_variants leet ws w : ∀ variants,
  w ∈ ws → case_variants w ⊆ foldl (pool_step leet) variants ws.
Proof.
  induction ws as [|w' ws IH]; intros variants Hw;
    [by apply elem_of_nil in Hw|].
  apply elem_of_cons in Hw as [->|Hw]; simpl.
  - etrans; [apply pool_step_case_variants | apply foldl_pool_step_mono].
  - by apply IH.
Qed.

Lemma variant_pool_case_variants base_words leet w :
  w ∈ base_words → case_variants w ⊆ variant_pool base_words leet.
Proof. apply foldl_pool_step_case_variants. Qed.

Lemma combiner_contains_pool variants separators x :
  separators ≠ [] → x ∈ variants → x ∈ combiner variants separators.
Proof.
  intros Hsep Hx. unfold combiner, combined.
  apply elem_of_list_to_set, list_elem_of_bind. exists 1. split.
  - apply list_elem_of_bind. exists [x]. split.
    + destruct separators as [|sep separators]; [done|]. left.
    + by apply singleton_permutation, elem_of_set_iter.
  - apply elem_of_seq.
    assert (size variants ≠ 0); [|lia].
    intros Hsize. apply size_empty_inv in Hsize. set_solver.
Qed.

Lemma augment_mono results years append_years :
  results ⊆ augment results years append_years.
Proof.
  unfold augment. destruct append_years, years as [[|y ys]|]; try done.
  apply union_subseteq_l.
Qed.

Lemma word_variants_case_variants base_words years leet append_years
    separators w :
  w ∈ base_words → separators ≠ Some [] →
  case_variants w
    ⊆ word_variants base_words years leet append_years separators.
Proof.
  intros Hw Hsep. unfold word_variants.
  etrans; [|apply augment_mono].
  intros x Hx. apply combiner_contains_pool.
  - destruct separators as [[|sep seps]|]; done.
  - by apply (variant_pool_case_variants base_words leet w).
Qed.

(** C10. With the separators left at their default, every base word and its
    lower-case, title-case and upper-case forms are themselves candidates:
    each pool element is a length-1 permutation, and joining a single
    element inserts no separator. *)
Theorem word_variants_contains_case_forms
    (base_words : list string) (years : option (list Z))
    (leet append_years : bool) (w : string) :
  w ∈ base_words →
  let results := word_variants base_words years leet append_years None in
  w ∈ results ∧ str_lower w ∈ results
  ∧ str_title w ∈ results ∧ str_upper w ∈ results.
Proof.
  intros Hw results.
  assert (Hsub : case_variants w ⊆ results)
    by by apply word_variants_case_variants.
  unfold case_variants in Hsub.
  repeat split; apply Hsub; set_solver.
Qed.


(** ** YearAugmenter *)

Lemma length_year_forms results years :
  length (year_forms results years) = size results * (2 * length years).
Proof.
  unfold year_forms.
  rewrite (length_bind_const _ _ (2 * length years)), length_set_iter; [done|].
  intros r _. rewrite (length_bind_const _ _ 2); [lia | done].
Qed.

Lemma elem_of_year_forms results years s :
  s ∈ year_forms results years →
  ∃ r y, r ∈ results ∧ y ∈ years
         ∧ (s = r +:+ str_of_int y ∨ s = str_of_int y +:+ r).
Proof.
  unfold year_forms. intros Hs.
  apply list_elem_of_bind in Hs as (r & Hs & Hr).
  apply list_elem_of_bind in Hs as (y & Hs & Hy).
  exists r, y. rewrite <- elem_of_set_iter. split_and!; [done..|].
  apply elem_of_cons in Hs as [->|Hs]; [by left|].
  apply list_elem_of_singleton in Hs as ->. by right.
Qed.

(** C5. Augmenting a candidate set of size C with Y years gives a set of
    size at most C*(1+2Y), and every string of the result that was not a
    candidate already is a candidate followed or preceded by the decimal
    form of one of the years. *)
Theorem year_augmentation
    (results : gset string) (years : option (list Z)) (append_years : bool) :
  let C := size results in
  let Y := length (default [] years) in
  size (augment results years append_years) ≤ C * (1 + 2 * Y)
  ∧ ∀ s, s ∈ augment results years append_years → s ∉ results →
      ∃ r y, r ∈ results ∧ y ∈ default [] years
             ∧ (s = r +:+ str_of_int y ∨ s = str_of_int y +:+ r).
Proof.
  intros C Y. unfold augment.
  destruct append_years, years as [[|y ys]|]; simpl in *;
    try (split; [unfold C; lia | intros s Hs Hn; done]).
  split.
  - rewrite size_union_alt.
    assert (size (list_to_set (year_forms results (y :: ys)) ∖ results)
            ≤ C * (2 * Y)); [|unfold C; lia].
    etrans; [apply subseteq_size, subseteq_difference_l; reflexivity|].
    etrans; [apply size_list_to_set_le|].
    by rewrite length_year_forms.
  - intros s Hs Hn. apply elem_of_union in Hs as [Hs|Hs]; [done|].
    apply elem_of_list_to_set in Hs. by apply elem_of_year_forms.
Qed.


(** ** Capper *)

Lemma capper_unfold_cut wl max_size :
  (0 < max_size < Z.of_nat (size wl))%Z →
  capper wl max_size = list_to_set (take (Z.to_nat max_size) (set_iter wl)).
Proof.
  intros Hm. unfold capper, slice_to.
  rewrite (bool_decide_eq_true_2 (max_size ≠ 0%Z)) by lia.
  rewrite (bool_decide_eq_true_2 (max_size < Z.of_nat (size wl))%Z) by lia.
  simpl. by rewrite decide_True by lia.
Qed.

Lemma capper_unfold_pass wl max_size :
  (max_size = 0 ∨ Z.of_nat (size wl) ≤ max_size)%Z → capper wl max_size = wl.
Proof.
  intros Hm. unfold capper.
  destruct (bool_decide_reflect (max_size ≠ 0%Z)); [|done].
  rewrite (bool_decide_eq_false_2 (max_size < Z.of_nat (size wl))%Z) by lia.
  done.
Qed.

Lemma size_take_set_iter wl n :
  size (list_to_set (C:=gset string) (take n (set_iter wl))) = n `min` size wl.
Proof.
  rewrite size_list_to_set.
  - by rewrite length_take, length_set_iter.
  - eapply sublist_NoDup; [apply NoDup_set_iter | apply sublist_take].
Qed.

Lemma size_capper wl max_size :
  (0 < max_size)%Z →
  Z.of_nat (size (capper wl max_size)) = (Z.of_nat (size wl) `min` max_size)%Z.
Proof.
  intros Hm. destruct (decide (max_size < Z.of_nat (size wl))%Z) as [Hlt|Hge].
  - rewrite capper_unfold_cut, size_take_set_iter by lia. lia.
  - rewrite capper_unfold_pass by lia. lia.
Qed.

Lemma capper_subseteq wl max_size :
  (0 ≤ max_size)%Z → capper wl max_size ⊆ wl.
Proof.
  intros Hm. destruct (decide (0 < max_size < Z.of_nat (size wl))%Z).
  - rewrite capper_unfold_cut by done. intros x Hx.
    apply elem_of_list_to_set, elem_of_take in Hx as (i & Hi & _).
    eapply elem_of_set_iter, list_elem_of_lookup_2, Hi.
  - by rewrite capper_unfold_pass by lia.
Qed.

(** C4. For a positive maximum the capped set has
    min(inputSize, maxSize) elements, a set at or below the maximum passes
    through unchanged, and capping twice is the same as capping once. *)
Theorem capper_size_idempotent (wl : gset string) (max_size : Z) :
  (0 < max_size)%Z →
  Z.of_nat (size (capper wl max_size)) = (Z.of_nat (size wl) `min` max_size)%Z
  ∧ ((Z.of_nat (size wl) ≤ max_size)%Z → capper wl max_size = wl)
  ∧ capper (capper wl max_size) max_size = capper wl max_size.
Proof.
  intros Hm. split_and!.
  - by apply size_capper.
  - intros Hle. apply capper_unfold_pass. by right.
  - apply capper_unfold_pass. right. rewrite size_capper by done. lia.
Qed.

(** C3. When the set has more elements than a positive maximum,
    the capped set has exactly the maximum number of elements, all taken
    from the input: they are the first ones in the iteration order of the
    set, so the choice is repeatable for a fixed iteration order only. *)
Theorem capper_exact_prefix (wl : gset string) (max_size : Z) :
  (0 < max_size < Z.of_nat (size wl))%Z →
  Z.of_nat (size (capper wl max_size)) = max_size
  ∧ capper wl max_size ⊆ wl
  ∧ ∀ x, x ∈ capper wl max_size
         ↔ ∃ i, (Z.of_nat i < max_size)%Z ∧ set_iter wl !! i = Some x.
Proof.
  intros Hm. split_and!.
  - rewrite size_capper by lia. lia.
  - apply capper_subseteq. lia.
  - intros x. rewrite capper_unfold_cut, elem_of_list_to_set by done.
    rewrite elem_of_take. split.
    + intros (i & Hx & Hi). exists i. split; [lia | done].
    + intros (i & Hi & Hx). exists i. split; [done | lia].
Qed.


(** ** [generate_wordlist] *)

Lemma read_years_spec args w :
  read_years args w
  = (years_of args,
     if truthy (arg_years args)
     then match parse_years (default "" (arg_years args)) with
          | Some _ => w
          | None => {| stdout := stdout w ++ [InvalidYearRange];
                       files := files w |}
          end
     else w).
Proof.
  unfold read_years, years_of. destruct (truthy (arg_years args)); [|done].
  by destruct (parse_years _).
Qed.

Lemma generate_wordlist_no_base args w :
  base_of args = [] →
  exec (generate_wordlist args) w
  = {| stdout := stdout w ++ [NoInputs]; files := files w |}.
Proof.
  intros Hbase. unfold generate_wordlist.
  by rewrite bool_decide_eq_true_2.
Qed.

Lemma generate_wordlist_base args w :
  base_of args ≠ [] →
  let w1 := (read_years args w).2 in
  let wl := wordlist_of args (years_of args) in
  exec (generate_wordlist args) w
  = {| stdout := stdout w1 ++ [GeneratingVariants (base_of args);
                                Generated (size wl) (out_path_of args)];
       files := <[out_path_of args := wordlist_text wl]> (files w1) |}.
Proof.
  intros Hbase. unfold generate_wordlist.
  rewrite bool_decide_eq_false_2 by done.
  unfold exec, mbind, IO_bind. rewrite read_years_spec. simpl.
  by rewrite <- (assoc_L (++)).
Qed.

Lemma word_variants_without_years base_words years leet append_years :
  years = None ∨ years = Some [] ∨ append_years = false →
  word_variants base_words years leet append_years None
  = combiner (variant_pool base_words leet) default_separators.
Proof.
  intros Hy. unfold word_variants, augment.
  destruct append_years, years as [[|y ys]|]; try done.
  by destruct Hy as [?|[?|?]].
Qed.

Lemma wordlist_of_nil args : wordlist_of args [] = plain_wordlist args.
Proof.
  unfold wordlist_of, plain_wordlist.
  rewrite word_variants_without_years; [done|].
  destruct (arg_append_years args); auto.
Qed.

Lemma string_app_assoc (s t u : string) : (s +:+ t) +:+ u = s +:+ (t +:+ u).
Proof. induction s as [|a s IH]; [done|]. exact (f_equal (String a) IH). Qed.

Lemma string_app_empty_r (s : string) : s +:+ "" = s.
Proof. induction s as [|a s IH]; [done|]. exact (f_equal (String a) IH). Qed.

Lemma foldl_write_unlines lines : ∀ content,
  foldl (λ content w, content +:+ (w +:+ newline)) content lines
  = content +:+ unlines lines.
Proof.
  induction lines as [|line lines IH]; intros content; simpl.
  - by rewrite string_app_empty_r.
  - by rewrite IH, !string_app_assoc.
Qed.

Lemma wordlist_text_unlines wl :
  wordlist_text wl = unlines (sorted (set_iter wl)).
Proof. unfold wordlist_text. by rewrite foldl_write_unlines. Qed.

Lemma sorted_spec (xs : list string) :
  StronglySorted String.le (sorted xs) ∧ sorted xs ≡ₚ xs.
Proof.
  split; [apply (StronglySorted_merge_sort _) | apply merge_sort_Permutation].
Qed.

Lemma string_rev_app_rev_app (s t u : string) :
  String.rev_app (String.rev_app s t) u = String.rev_app t (s +:+ u).
Proof.
  revert t. induction s as [|a s IH]; intros t; [done|]. simpl.
  by rewrite IH.
Qed.

Lemma string_rev_involutive (s : string) : String.rev (String.rev s) = s.
Proof.
  unfold String.rev. rewrite string_rev_app_rev_app. simpl.
  apply string_app_empty_r.
Qed.

Lemma split_go_line sep line : ∀ cur rest,
  has_char sep line = false →
  split_go sep cur (line +:+ String sep rest)
  = String.rev (String.rev_app line cur) :: split_go sep EmptyString rest.
Proof.
  induction line as [|a line IH]; intros cur rest Hline; simpl.
  - by rewrite decide_True.
  - simpl in Hline. apply orb_false_iff in Hline as [Ha Hline].
    apply bool_decide_eq_false in Ha. rewrite decide_False by done.
    by rewrite IH.
Qed.

(** Read back line by line, a file written from words without newlines
    gives the words, and nothing after the last newline. *)
Lemma str_split_unlines (lines : list string) :
  Forall (λ line, has_char (ascii_of_nat 10) line = false) lines →
  str_split (ascii_of_nat 10) (unlines lines) = lines ++ [""].
Proof.
  induction 1 as [|line lines Hline _ IH]; [done|].
  change (split_go (ascii_of_nat 10) EmptyString
            (line +:+ String (ascii_of_nat 10) (unlines lines))
          = line :: (lines ++ [""])).
  rewrite split_go_line by done.
  change (String.rev_app line EmptyString) with (String.rev line).
  rewrite string_rev_involutive. f_equal. exact IH.
Qed.

(** C7. When no word of the final set contains a newline, the file written
    by a run has one word per line: split at the newlines it is the words in
    ascending code-point order, without repeats, followed by one empty piece,
    so nothing comes after the last newline.  The text itself is those
    words, each followed by a newline. *)
Theorem wordlist_file_format (args : Args) (w : World) :
  base_of args ≠ [] →
  (∀ x, x ∈ wordlist_of args (years_of args)
        → has_char (ascii_of_nat 10) x = false) →
  ∃ text lines,
    files (exec (generate_wordlist args) w) !! out_path_of args = Some text
    ∧ text = unlines lines
    ∧ str_split (ascii_of_nat 10) text = lines ++ [""]
    ∧ StronglySorted String.le lines
    ∧ NoDup lines
    ∧ ∀ x, x ∈ lines ↔ x ∈ wordlist_of args (years_of args).
Proof.
  intros Hbase Hclean. set (wl := wordlist_of args (years_of args)) in *.
  destruct (sorted_spec (set_iter wl)) as [Hsorted Hperm].
  assert (Hmem : ∀ x, x ∈ sorted (set_iter wl) ↔ x ∈ wl)
    by (intros x; by rewrite Hperm, elem_of_set_iter).
  exists (wordlist_text wl), (sorted (set_iter wl)). split_and!.
  - rewrite generate_wordlist_base by done. simpl. by rewrite lookup_insert_eq.
  - apply wordlist_text_unlines.
  - rewrite wordlist_text_unlines. apply str_split_unlines.
    apply Forall_forall. intros x Hx. by apply Hclean, Hmem.
  - done.
  - rewrite Hperm. apply NoDup_set_iter.
  - done.
Qed.

(** C8. Without any of name, pet, birth and keyword, a run prints the
    no-inputs message and ends: no file is written and nothing else is
    printed. *)
Theorem generate_without_seeds (args : Args) (w : World) :
  arg_name args = None → arg_pet args = None →
  arg_birth args = None → arg_keyword args = None →
  exec (generate_wordlist args) w
  = {| stdout := stdout w ++ [NoInputs]; files := files w |}.
Proof.
  intros Hname Hpet Hbirth Hkeyword. apply generate_wordlist_no_base.
  unfold base_of. by rewrite Hname, Hpet, Hbirth, Hkeyword.
Qed.

(** C9. A [--years] value of two integers with start > end gives the empty
    year list without any warning: the run prints and writes what a run
    without [--years] does, and the words written have no year forms. *)
Theorem reversed_year_range_is_silent
    (args : Args) (w : World) (s a b : string) (start end_ : Z) :
  arg_years args = Some s →
  str_split "-" s = [a; b] → py_int a = Some start → py_int b = Some end_ →
  (end_ < start)%Z →
  parse_years s = Some []
  ∧ read_years args w = ([], w)
  ∧ exec (generate_wordlist args) w
    = exec (generate_wordlist (with_years None args)) w
  ∧ (base_of args ≠ [] →
     exec (generate_wordlist args) w
     = {| stdout := stdout w ++ [GeneratingVariants (base_of args);
                                  Generated (size (plain_wordlist args))
                                            (out_path_of args)];
          files := <[out_path_of args := wordlist_text (plain_wordlist args)]>
                     (files w) |}).
Proof.
  intros Hyears Hsplit Ha Hb Hlt.
  assert (Hparse : parse_years s = Some []).
  { unfold parse_years. rewrite Hsplit, Ha, Hb. simpl. unfold range.
    by replace (Z.to_nat (end_ + 1 - start)) with 0 by lia. }
  assert (Htruthy : truthy (arg_years args) = true).
  { rewrite Hyears. destruct s; [by vm_compute in Hsplit | done]. }
  assert (Hof : years_of args = []).
  { unfold years_of. by rewrite Htruthy, Hyears; simpl; rewrite Hparse. }
  assert (Hread : read_years args w = ([], w)).
  { rewrite read_years_spec, Hof, Htruthy, Hyears. simpl. by rewrite Hparse. }
  assert (Hrun : base_of args ≠ [] →
     exec (generate_wordlist args) w
     = {| stdout := stdout w ++ [GeneratingVariants (base_of args);
                                  Generated (size (plain_wordlist args))
                                            (out_path_of args)];
          files := <[out_path_of args := wordlist_text (plain_wordlist args)]>
                     (files w) |}).
  { intros Hbase. rewrite generate_wordlist_base by done.
    by rewrite Hread, Hof, wordlist_of_nil. }
  split_and!; try done.
  destruct (decide (base_of args = [])) as [Hbase|Hbase].
  - by rewrite !generate_wordlist_no_base.
  - rewrite Hrun by done.
    rewrite (generate_wordlist_base (with_years None args)) by done.
    by rewrite read_years_spec, wordlist_of_nil.
Qed.

(** C6. When at least one seed is given and a non-empty
    [--years] value does not parse, the run prints the invalid-range
    warning and then goes on as a run without years: it writes the capped
    candidate set without year forms and prints the final count. *)
Theorem unparsable_years_warns (args : Args) (w : World) (s : string) :
  arg_years args = Some s → s ≠ "" → parse_years s = None →
  base_of args ≠ [] →
  exec (generate_wordlist args) w
  = {| stdout := stdout w ++ [InvalidYearRange;
                               GeneratingVariants (base_of args);
                               Generated (size (plain_wordlist args))
                                         (out_path_of args)];
       files := <[out_path_of args := wordlist_text (plain_wordlist args)]>
                  (files w) |}.
Proof.
  intros Hyears Hne Hparse Hbase.
  assert (Htruthy : truthy (arg_years args) = true)
    by (rewrite Hyears; by destruct s).
  assert (Hof : years_of args = []).
  { unfold years_of. by rewrite Htruthy, Hyears; simpl; rewrite Hparse. }
  rewrite generate_wordlist_base by done.
  rewrite read_years_spec, Hof, Htruthy, Hyears, wordlist_of_nil. simpl.
  rewrite Hparse. simpl. by rewrite <- (assoc_L (++)).
Qed.


End properties.

Lemma combiner_size_counterexample :
  ¬ ∀ (R : PyRuntime) (variants : gset string) (separators : list string),
      NoDup separators → 3 ≤ size variants →
      let k := size variants in
      let s := length separators in
      size (combiner variants separators)
      = s * (k + k * (k - 1) + k * (k - 2) * (k - 1)).
Proof.
  intros Hclaim.
  assert (Hnd : NoDup default_separators)
    by (apply (bool_decide_unpack _); by vm_compute).
  assert (Hk : 3 ≤ size ({[ "ab"; "Ab"; "AB" ]} : gset string))
    by (vm_compute; lia).
  specialize (Hclaim ascending_runtime _ _ Hnd Hk).
  vm_compute in Hclaim. discriminate.
Qed.

(** ** Limits of the stated properties *)

(** The Capper keeps a prefix of the iteration order: with a cap of 0 the set
    is not reduced at all. *)
Lemma capper_size_counterexample :
  ¬ ∀ (R : PyRuntime) (wl : gset string) (max_size : Z),
      Z.of_nat (size (capper wl max_size))
        = (Z.of_nat (size wl) `min` max_size)%Z
      ∧ capper (capper wl max_size) max_size = capper wl max_size.
Proof.
  intros Hclaim.
  destruct (Hclaim ascending_runtime abc 0%Z) as [Hsize _].
  vm_compute in Hsize. discriminate.
Qed.

(** Two iteration orders of one set keep different elements. *)
Lemma capper_depends_on_iteration_order :
  ¬ ∀ (R1 R2 : PyRuntime) (wl : gset string) (max_size : Z),
      (max_size < Z.of_nat (size wl))%Z →
      @capper R1 wl max_size = @capper R2 wl max_size.
Proof.
  intros Hclaim.
  assert (Hlt : (2 < Z.of_nat (size abc))%Z) by (vm_compute; done).
  specialize (Hclaim ascending_runtime descending_runtime abc 2%Z Hlt).
  apply (f_equal elements) in Hclaim. vm_compute in Hclaim. discriminate.
Qed.

(** A blank [--years] value is not parsed at all, and a run without seeds
    ends before the years are looked at: no warning in either case. *)
Lemma unparsable_years_counterexample :
  ¬ ∀ (R : PyRuntime) (args : Args) (w : World) (s : string),
      arg_years args = Some s → parse_years s = None →
      InvalidYearRange ∈ stdout (exec (generate_wordlist args) w).
Proof.
  intros Hclaim.
  specialize (Hclaim ascending_runtime args_blank_years empty_world ""
                eq_refl eq_refl).
  vm_compute in Hclaim.
  apply elem_of_cons in Hclaim as [?|Hclaim]; [done|].
  apply elem_of_cons in Hclaim as [?|Hclaim]; [done|].
  by apply elem_of_nil in Hclaim.
Qed.

(** A seed may hold a newline; its words then span several lines of the
    file, and the lines are neither the words nor in ascending order. *)
Lemma wordlist_file_format_counterexample :
  ¬ ∀ (R : PyRuntime) (args : Args) (w : World),
      base_of args ≠ [] →
      ∃ text lines,
        files (exec (generate_wordlist args) w) !! out_path_of args = Some text
        ∧ str_split (ascii_of_nat 10) text = lines ++ [""]
        ∧ StronglySorted String.le lines
        ∧ ∀ x, x ∈ lines ↔ x ∈ wordlist_of args (years_of args).
Proof.
  intros Hclaim.
  assert (Hbase : base_of args_newline_seed ≠ []) by (by vm_compute).
  destruct (Hclaim ascending_runtime args_newline_seed empty_world Hbase)
    as (text & lines & Hfile & Hsplit & _ & Hmem).
  vm_compute in Hfile. injection Hfile as <-.
  destruct lines as [|line lines]; [by vm_compute in Hsplit|].
  vm_compute in Hsplit. injection Hsplit as <- _.
  assert (Hin : "B" ∈ @wordlist_of ascending_runtime args_newline_seed
                        (@years_of ascending_runtime args_newline_seed))
    by (apply Hmem; left).
  apply (bool_decide_pack _) in Hin. by vm_compute in Hin.
Qed.

Example unparsable_years_without_seed :
  @parse_years ascending_runtime "abc" = None
  ∧ exec (@generate_wordlist ascending_runtime args_no_seed_bad_years)
         empty_world
    = {| stdout := [NoInputs]; files := ∅ |}.
Proof. split; reflexivity. Qed.

(** ** The theorems at the sample inputs *)

Lemma leetspeak_variants_size_witness :
  size (@leetspeak_variants ascending_runtime "Test") = 24
  ∧ LEET_MAP !! @str_lower ascending_runtime "x" = None
  ∧ @alternatives ascending_runtime "x" = {[ "x" ]}.
Proof.
  destruct (@leetspeak_variants_size ascending_runtime "Test")
    as (Hsize & Halt & _).
  split; [by rewrite Hsize | split; [reflexivity | by apply Halt]].
Defined.

Lemma word_variants_contains_case_forms_witness :
  "Max" ∈ ["Max"]
  ∧ "Max" ∈ @word_variants ascending_runtime ["Max"] None false false None
  ∧ "max" ∈ @word_variants ascending_runtime ["Max"] None false false None
  ∧ "Max" ∈ @word_variants ascending_runtime ["Max"] None false false None
  ∧ "MAX" ∈ @word_variants ascending_runtime ["Max"] None false false None.
Proof.
  split; [left|].
  apply (@word_variants_contains_case_forms ascending_runtime
           ["Max"] None false false "Max").
  left.
Defined.

Lemma year_augmentation_witness :
  "a2020" ∈ @augment ascending_runtime {[ "a" ]} (Some [2020%Z]) true
  ∧ ("a2020" ∉ ({[ "a" ]} : gset string))
  ∧ (size (@augment ascending_runtime {[ "a" ]} (Some [2020%Z]) true)
     ≤ 1 * (1 + 2 * 1))
  ∧ ∃ r y, r ∈ ({[ "a" ]} : gset string) ∧ y ∈ [2020%Z]
           ∧ ("a2020" = r +:+ str_of_int y ∨ "a2020" = str_of_int y +:+ r).
Proof.
  assert (Hin : "a2020" ∈ @augment ascending_runtime {[ "a" ]} (Some [2020%Z]) true)
    by (apply elem_of_union_r, elem_of_list_to_set; left).
  assert (Hnot : "a2020" ∉ ({[ "a" ]} : gset string))
    by (intros Hx; by apply elem_of_singleton in Hx).
  destruct (@year_augmentation ascending_runtime {[ "a" ]} (Some [2020%Z]) true)
    as [Hsize Hforms].
  split; [done | split; [done | split; [exact Hsize | by apply Hforms]]].
Defined.

Lemma capper_size_idempotent_witness :
  (0 < 2)%Z
  ∧ Z.of_nat (size (@capper ascending_runtime abc 2))
    = (Z.of_nat (size abc) `min` 2)%Z
  ∧ ((Z.of_nat (size abc) ≤ 2)%Z → @capper ascending_runtime abc 2 = abc)
  ∧ @capper ascending_runtime (@capper ascending_runtime abc 2) 2
    = @capper ascending_runtime abc 2.
Proof.
  split; [done|].
  apply (@capper_size_idempotent ascending_runtime abc 2). done.
Defined.

Lemma capper_exact_prefix_witness :
  (0 < 2 < Z.of_nat (size abc))%Z
  ∧ Z.of_nat (size (@capper descending_runtime abc 2)) = 2%Z
  ∧ @capper descending_runtime abc 2 ⊆ abc
  ∧ ∀ x, x ∈ @capper descending_runtime abc 2
         ↔ ∃ i, (Z.of_nat i < 2)%Z
                ∧ @set_iter descending_runtime abc !! i = Some x.
Proof.
  assert (Hm : (0 < 2 < Z.of_nat (size abc))%Z) by (vm_compute; done).
  split; [exact Hm|].
  apply (@capper_exact_prefix descending_runtime abc 2 Hm).
Defined.

Lemma wordlist_file_format_witness :
  @base_of args_max ≠ []
  ∧ (∀ x, x ∈ @wordlist_of ascending_runtime args_max
                (@years_of ascending_runtime args_max)
          → has_char (ascii_of_nat 10) x = false)
  ∧ ∃ text lines,
      (files (exec (@generate_wordlist ascending_runtime args_max)
                empty_world)) !! out_path_of args_max
      = Some text
      ∧ text = unlines lines
      ∧ str_split (ascii_of_nat 10) text = lines ++ [""]
      ∧ StronglySorted String.le lines
      ∧ NoDup lines
      ∧ ∀ x, x ∈ lines
             ↔ x ∈ @wordlist_of ascending_runtime args_max
                     (@years_of ascending_runtime args_max).
Proof.
  assert (Hbase : base_of args_max ≠ []) by done.
  assert (Hclean : ∀ x, x ∈ @wordlist_of ascending_runtime args_max
                              (@years_of ascending_runtime args_max)
                        → has_char (ascii_of_nat 10) x = false).
  { intros x Hx. apply elem_of_elements in Hx. revert x Hx.
    apply Forall_forall. apply (bool_decide_unpack _). by vm_compute. }
  split; [exact Hbase|]. split; [exact Hclean|].
  apply (@wordlist_file_format ascending_runtime args_max empty_world
           Hbase Hclean).
Defined.

Lemma generate_without_seeds_witness :
  arg_name args_no_seed = None ∧ arg_pet args_no_seed = None
  ∧ arg_birth args_no_seed = None ∧ arg_keyword args_no_seed = None
  ∧ exec (@generate_wordlist ascending_runtime args_no_seed) empty_world
    = {| stdout := stdout empty_world ++ [NoInputs];
         files := files empty_world |}.
Proof.
  do 4 (split; [reflexivity|]).
  apply (@generate_without_seeds ascending_runtime args_no_seed empty_world);
    reflexivity.
Defined.

Lemma reversed_year_range_is_silent_witness :
  arg_years args_reversed = Some "2025-1990"
  ∧ str_split "-" "2025-1990" = ["2025"; "1990"]
  ∧ @py_int ascending_runtime "2025" = Some 2025%Z
  ∧ @py_int ascending_runtime "1990" = Some 1990%Z
  ∧ (1990 < 2025)%Z
  ∧ @parse_years ascending_runtime "2025-1990" = Some []
  ∧ @read_years ascending_runtime args_reversed empty_world = ([], empty_world)
  ∧ exec (@generate_wordlist ascending_runtime args_reversed) empty_world
    = exec (@generate_wordlist ascending_runtime
              (with_years None args_reversed)) empty_world.
Proof.
  do 5 (split; [reflexivity|]).
  destruct (@reversed_year_range_is_silent ascending_runtime args_reversed
              empty_world "2025-1990" "2025" "1990" 2025%Z 1990%Z
              eq_refl eq_refl eq_refl eq_refl eq_refl)
    as (Hparse & Hread & Hsame & _).
  split; [exact Hparse | split; [exact Hread | exact Hsame]].
Defined.

Lemma unparsable_years_warns_witness :
  arg_years args_bad_years = Some "abc" ∧ "abc" ≠ ""
  ∧ @parse_years ascending_runtime "abc" = None
  ∧ @base_of args_bad_years ≠ []
  ∧ exec (@generate_wordlist ascending_runtime args_bad_years) empty_world
    = {| stdout := stdout empty_world
                   ++ [InvalidYearRange;
                       GeneratingVariants (base_of args_bad_years);
                       Generated
                         (size (@plain_wordlist ascending_runtime args_bad_years))
                         (out_path_of args_bad_years)];
         files := <[out_path_of args_bad_years :=
                      @wordlist_text ascending_runtime
                        (@plain_wordlist ascending_runtime args_bad_years)]>
                    (files empty_world) |}.
Proof.
  assert (Hne : "abc" ≠ "") by done.
  assert (Hbase : base_of args_bad_years ≠ []) by done.
  split; [reflexivity | split; [exact Hne | split; [reflexivity |]]].
  split; [exact Hbase|].
  apply (@unparsable_years_warns ascending_runtime args_bad_years empty_world
           "abc" eq_refl Hne eq_refl Hbase).
Defined.

(** * Further properties of the program *)

(** ** Strings as character lists *)

Lemma chars_app (s t : string) : chars (s +:+ t) = chars s ++ chars t.
Proof.
  induction s as [|a s IH]; [done|].
  change (String a EmptyString :: chars (s +:+ t)
          = String a EmptyString :: (chars s ++ chars t)).
  by rewrite IH.
Qed.

Lemma chars_one_char_eq (ch : string) : one_char ch → chars ch = [ch].
Proof. by intros Hch; destruct ch as [|a [|b ch]]. Qed.

Lemma chars_inj (s t : string) : chars s = chars t → s = t.
Proof.
  revert t. induction s as [|a s IH]; intros [|b t] Heq; simplify_eq/=; [done|].
  f_equal. by apply IH.
Qed.

Lemma length_chars (s : string) : length (chars s) = String.length s.
Proof. induction s as [|a s IH]; simpl; [done | by rewrite IH]. Qed.

Section leet_expander.
Context `{!PyRuntime}.

Lemma elem_of_leet_step variants c v :
  v ∈ leet_step variants c
  ↔ ∃ p ch, p ∈ variants ∧ ch ∈ leet_choices c ∧ v = p +:+ ch.
Proof.
  unfold leet_step. rewrite list_elem_of_bind. split.
  - intros (p & Hv & Hp). apply list_elem_of_fmap in Hv as (ch & -> & Hch).
    by exists p, ch.
  - intros (p & ch & Hp & Hch & ->). exists p. split; [|done].
    apply list_elem_of_fmap. by exists ch.
Qed.

Lemma elem_of_leet_fold cs : ∀ variants v,
  Forall one_char cs →
  v ∈ foldl leet_step variants cs
  ↔ ∃ p rest, p ∈ variants ∧ v = p +:+ rest
              ∧ Forall2 (λ ch c, ch ∈ leet_choices c) (chars rest) cs.
Proof.
  induction cs as [|c cs IH]; intros variants v Hcs; simpl.
  - split.
    + intros Hv. exists v, "". by rewrite string_app_empty_r.
    + intros (p & rest & Hp & -> & Hrest).
      apply Forall2_nil_inv_r in Hrest.
      destruct rest; [|done]. by rewrite string_app_empty_r.
  - apply Forall_cons in Hcs as [Hc Hcs].
    destruct (leet_choices_spec c Hc) as [_ Hone].
    rewrite Forall_forall in Hone.
    rewrite IH by done. split.
    + intros (p' & rest & Hp' & -> & Hrest).
      apply elem_of_leet_step in Hp' as (p & ch & Hp & Hch & ->).
      exists p, (ch +:+ rest). split; [done|].
      split; [by rewrite string_app_assoc|].
      rewrite chars_app, (chars_one_char_eq ch) by by apply Hone.
      by constructor.
    + intros (p & rest & Hp & -> & Hrest).
      destruct rest as [|a rest]; [by inversion Hrest|].
      simpl in Hrest. apply Forall2_cons in Hrest as [Hch Hrest].
      exists (p +:+ String a EmptyString), rest. split_and!.
      * apply elem_of_leet_step. by exists p, (String a EmptyString).
      * by rewrite string_app_assoc.
      * done.
Qed.

Lemma elem_of_leet_list (word v : string) :
  v ∈ leet_list word
  ↔ Forall2 (λ ch c, ch ∈ leet_choices c) (chars v) (chars word).
Proof.
  unfold leet_list. rewrite elem_of_leet_fold by apply chars_one_char.
  split.
  - intros (p & rest & Hp & -> & Hrest).
    by apply list_elem_of_singleton in Hp as ->.
  - intros Hv. exists "", v. split; [left | done].
Qed.

(** X1. The LeetExpander returns exactly the strings that pick, at every
    position of the word, one of the choices [LEET_MAP] has for the
    character there (the character itself when it has no entry). *)
Theorem leetspeak_variants_pointwise (word v : string) :
  v ∈ leetspeak_variants word ↔ pointwise_choice v word.
Proof.
  unfold leetspeak_variants, pointwise_choice.
  rewrite elem_of_list_to_set. apply elem_of_leet_list.
Qed.

(** X2. Every variant has as many characters as the word: substitution
    never inserts or drops a character. *)
Theorem leetspeak_variants_length (word v : string) :
  v ∈ leetspeak_variants word → String.length v = String.length word.
Proof.
  intros Hv. apply elem_of_list_to_set, elem_of_leet_list in Hv.
  apply Forall2_length in Hv. by rewrite !length_chars in Hv.
Qed.

Lemma LEET_MAP_entry_length k v :
  LEET_MAP !! k = Some v → 1 ≤ length v ≤ 3.
Proof.
  intros Hk. apply elem_of_list_to_map_2 in Hk.
  repeat (apply elem_of_cons in Hk as [Hk|Hk]; [simplify_eq; simpl; lia|]).
  by apply elem_of_nil in Hk.
Qed.

Lemma length_leet_choices c : 1 ≤ length (leet_choices c) ≤ 3.
Proof.
  unfold leet_choices.
  destruct (LEET_MAP !! str_lower c) as [v|] eqn:Hv; simpl; [|lia].
  by apply LEET_MAP_entry_length in Hv.
Qed.

Lemma product_bounds (ns : list nat) :
  Forall (λ n, 1 ≤ n ≤ 3) ns → 1 ≤ product ns ≤ 3 ^ length ns.
Proof.
  induction 1 as [|n ns Hn _ IH]; simpl; [lia|].
  change (foldr Nat.mul 1 ns) with (product ns). nia.
Qed.

(** X3. A word of n characters has at least one and at most 3^n variants. *)
Theorem leetspeak_variants_size_bounds (word : string) :
  1 ≤ size (leetspeak_variants word) ≤ 3 ^ String.length word.
Proof.
  destruct (leet_list_spec word) as [Hnd Hlen].
  unfold leetspeak_variants. rewrite size_list_to_set, Hlen by done.
  rewrite <- length_chars.
  rewrite <- (length_fmap (λ c, size (alternatives c)) (chars word)).
  apply product_bounds, Forall_fmap.
  eapply Forall_impl; [apply chars_one_char|].
  intros c Hc. simpl. rewrite size_alternatives by done.
  apply length_leet_choices.
Qed.

End leet_expander.

(** ** Permutations *)

Lemma selections_split {A} (l : list A) x rest :
  (x, rest) ∈ selections l ↔ ∃ l1 l2, l = l1 ++ x :: l2 ∧ rest = l1 ++ l2.
Proof.
  revert rest. induction l as [|a l IH]; intros rest; simpl.
  - split; [by intros ?%elem_of_nil | by intros ([|??] & ? & ? & _)].
  - rewrite elem_of_cons, list_elem_of_fmap. split.
    + intros [Heq|([y rest'] & Heq & Hy)]; simplify_eq/=.
      * by exists [], l.
      * apply IH in Hy as (l1 & l2 & -> & ->). by exists (a :: l1), l2.
    + intros ([|b l1] & l2 & Hl & ->); simplify_eq/=; [by left|].
      right. exists (x, l1 ++ l2). split; [done|]. apply IH. by exists l1, l2.
Qed.

Lemma elem_of_permutations {A} r : ∀ (l combo : list A),
  NoDup l →
  combo ∈ permutations l r
  ↔ length combo = r ∧ NoDup combo ∧ ∀ y, y ∈ combo → y ∈ l.
Proof.
  induction r as [|r IH]; intros l combo Hl; simpl.
  - rewrite list_elem_of_singleton. split.
    + intros ->. split_and!; [done | constructor | by intros y ?%elem_of_nil].
    + intros (Hlen & _ & _). by destruct combo.
  - rewrite list_elem_of_bind. split.
    + intros ([x rest] & Hcombo & Hsel).
      apply list_elem_of_fmap in Hcombo as (tl & -> & Htl).
      apply selections_split in Hsel as (l1 & l2 & -> & ->).
      apply NoDup_app in Hl as (Hl1 & Hdisj & [Hx Hl2]%NoDup_cons).
      apply IH in Htl as (Hlen & Hnd & Hsub).
      2:{ apply NoDup_app. split_and!; [done | | done].
          intros y Hy1 Hy2. apply (Hdisj y Hy1). by right. }
      split_and!.
      * simpl. by rewrite Hlen.
      * apply NoDup_cons. split; [|done]. intros Hin%Hsub.
        apply elem_of_app in Hin as [Hin|Hin]; [|done].
        apply (Hdisj x Hin). left.
      * intros y [->|Hy%Hsub]%elem_of_cons.
        -- apply elem_of_app. right. left.
        -- apply elem_of_app in Hy as [Hy|Hy]; apply elem_of_app;
             [by left | right; by right].
    + intros (Hlen & Hnd & Hsub). destruct combo as [|x tl]; [done|].
      apply NoDup_cons in Hnd as [Hx Hnd].
      destruct (list_elem_of_split l x) as (l1 & l2 & ->).
      { apply Hsub. left. }
      exists (x, l1 ++ l2). split.
      * apply list_elem_of_fmap. exists tl. split; [done|].
        apply NoDup_app in Hl as (Hl1 & Hdisj & [Hx2 Hl2]%NoDup_cons).
        apply IH.
        { apply NoDup_app. split_and!; [done | | done].
          intros y Hy1 Hy2. apply (Hdisj y Hy1). by right. }
        split_and!; [by simplify_eq/= | done |].
        intros y Hy. assert (y ≠ x) by (by intros ->).
        assert (Hyl : y ∈ l1 ++ x :: l2) by (apply Hsub; by right).
        apply elem_of_app in Hyl as [Hyl|Hyl]; apply elem_of_app; [by left|].
        apply elem_of_cons in Hyl as [?|Hyl]; [done | by right].
      * apply selections_split. by exists l1, l2.
Qed.

Section candidates.
Context `{!PyRuntime}.

(** ** Combiner: which strings are candidates *)

Lemma elem_of_combiner (variants : gset string) (separators : list string) x :
  x ∈ combiner variants separators
  ↔ ∃ combo sep,
      1 ≤ length combo ≤ 3 ∧ NoDup combo ∧ (∀ y, y ∈ combo → y ∈ variants)
      ∧ sep ∈ separators ∧ x = String.concat sep combo.
Proof.
  unfold combiner, combined. rewrite elem_of_list_to_set, list_elem_of_bind.
  split.
  - intros (combo_len & Hx & Hlen%elem_of_seq).
    apply list_elem_of_bind in Hx as (combo & Hx & Hcombo).
    apply list_elem_of_fmap in Hx as (sep & -> & Hsep).
    apply elem_of_permutations in Hcombo as (Hl & Hnd & Hsub);
      [|apply NoDup_set_iter].
    exists combo, sep. split_and!; [lia | lia | done | | done | done].
    intros y Hy. by apply elem_of_set_iter, Hsub.
  - intros (combo & sep & Hlen & Hnd & Hsub & Hsep & ->).
    exists (length combo). split.
    + apply list_elem_of_bind. exists combo. split.
      * apply list_elem_of_fmap. by exists sep.
      * apply elem_of_permutations; [apply NoDup_set_iter|].
        split_and!; [done..|]. intros y Hy. by apply elem_of_set_iter, Hsub.
    + apply elem_of_seq.
      assert (length combo ≤ size variants); [|lia].
      rewrite <- length_set_iter. apply submseteq_length, NoDup_submseteq;
        [done|]. intros y Hy. by apply elem_of_set_iter, Hsub.
Qed.

(** X4. A string is a candidate exactly when it is some separator of the
    list joining one, two or three pairwise different pool elements, in any
    order. *)
Theorem combiner_membership
    (variants : gset string) (separators : list string) (x : string) :
  x ∈ combiner variants separators
  ↔ ∃ combo sep,
      1 ≤ length combo ≤ 3 ∧ NoDup combo ∧ (∀ y, y ∈ combo → y ∈ variants)
      ∧ sep ∈ separators ∧ x = String.concat sep combo.
Proof.
  split.
  - intros Hx. by apply elem_of_combiner in Hx.
  - intros Hx. by apply elem_of_combiner.
Qed.

(** X5. The candidate set is empty exactly when the pool is empty or there
    is no separator at all. *)
Theorem combiner_empty_iff (variants : gset string) (separators : list string) :
  combiner variants separators = ∅ ↔ variants = ∅ ∨ separators = [].
Proof.
  split.
  - intros Hempty.
    destruct separators as [|sep separators]; [by right|]. left.
    apply set_eq. intros x. split; [|by intros ?%not_elem_of_empty].
    intros Hx. rewrite <- Hempty. by apply combiner_contains_pool.
  - intros Hempty. apply set_eq. intros x.
    split; [|by intros ?%not_elem_of_empty].
    intros (combo & sep & Hlen & _ & Hsub & Hsep & _)%elem_of_combiner.
    destruct Hempty as [-> | ->]; [|by apply elem_of_nil in Hsep].
    destruct combo as [|y combo]; [simpl in Hlen; lia|].
    apply (Hsub y). left.
Qed.

(** ** VariantPool builder: which strings are in the pool *)

Lemma elem_of_pool_step leet variants w x :
  x ∈ pool_step leet variants w
  ↔ x ∈ variants ∨ x ∈ case_variants w
    ∨ (leet = true ∧ ∃ v, v ∈ case_variants w ∧ x ∈ leetspeak_variants v).
Proof.
  unfold pool_step. destruct leet.
  - rewrite !elem_of_union, elem_of_union_list. split.
    + intros [?|[?|(X & HX & Hx)]]; [by left | by right; left |].
      apply list_elem_of_fmap in HX as (v & -> & Hv%elem_of_set_iter).
      right; right. split; [done|]. by exists v.
    + intros [?|[?|[_ (v & Hv & Hx)]]]; [by left | by right; left |].
      right; right. exists (leetspeak_variants v). split; [|done].
      apply list_elem_of_fmap. exists v. by rewrite elem_of_set_iter.
  - rewrite elem_of_union. split.
    + intros [?|?]; [by left | by right; left].
    + intros [?|[?|[? _]]]; [by left | by right | done].
Qed.

Lemma elem_of_foldl_pool_step leet ws : ∀ variants x,
  x ∈ foldl (pool_step leet) variants ws
  ↔ x ∈ variants
    ∨ ∃ w, w ∈ ws
        ∧ (x ∈ case_variants w
           ∨ (leet = true
              ∧ ∃ v, v ∈ case_variants w ∧ x ∈ leetspeak_variants v)).
Proof.
  induction ws as [|w ws IH]; intros variants x; simpl.
  - split; [by left | intros [?|(w & ?%elem_of_nil & _)]; done].
  - rewrite IH, elem_of_pool_step. split.
    + intros [[?|Hw]|(w' & Hw' & Hx)].
      * by left.
      * right. exists w. split; [left | done].
      * right. exists w'. split; [by right | done].
    + intros [?|(w' & [->|Hw']%elem_of_cons & Hx)].
      * left. by left.
      * left. by right.
      * right. by exists w'.
Qed.

Lemma elem_of_variant_pool base_words leet x :
  x ∈ variant_pool base_words leet
  ↔ ∃ w, w ∈ base_words
      ∧ (x ∈ case_variants w
         ∨ (leet = true
            ∧ ∃ v, v ∈ case_variants w ∧ x ∈ leetspeak_variants v)).
Proof.
  unfold variant_pool. rewrite elem_of_foldl_pool_step.
  split; [by intros [?%not_elem_of_empty|?] | by right].
Qed.

(** X6. The pool holds exactly the four case forms of every base word and,
    with [leet] set, the leet variants of each of those forms; nothing else
    enters it. *)
Theorem variant_pool_membership (base_words : list string) (leet : bool) x :
  x ∈ variant_pool base_words leet
  ↔ ∃ w, w ∈ base_words
      ∧ (x ∈ ({[ w; str_lower w; str_title w; str_upper w ]} : gset string)
         ∨ (leet = true
            ∧ ∃ v, v ∈ ({[ w; str_lower w; str_title w; str_upper w ]}
                         : gset string)
                   ∧ pointwise_choice x v)).
Proof.
  rewrite elem_of_variant_pool. unfold case_variants.
  split; intros (w & Hw & Hx); exists w; (split; [done|]);
    destruct Hx as [Hx|[Hleet (v & Hv & Hx)]]; [by left | | by left |];
    right; (split; [done|]); exists v; (split; [done|]).
  - by apply elem_of_list_to_set, elem_of_leet_list in Hx.
  - by apply elem_of_list_to_set, elem_of_leet_list.
Qed.

(** ** YearAugmenter: which strings are added *)

Lemma elem_of_year_forms_iff results years s :
  s ∈ year_forms results years
  ↔ ∃ r y, r ∈ results ∧ y ∈ years
           ∧ (s = r +:+ str_of_int y ∨ s = str_of_int y +:+ r).
Proof.
  split; [apply elem_of_year_forms|].
  intros (r & y & Hr & Hy & Hs). unfold year_forms.
  apply list_elem_of_bind. exists r. split; [|by apply elem_of_set_iter].
  apply list_elem_of_bind. exists y. split; [|done].
  destruct Hs as [-> | ->]; [left | right; left].
Qed.

Lemma elem_of_augment results years append_years s :
  s ∈ augment results years append_years
  ↔ s ∈ results
    ∨ (append_years = true
       ∧ ∃ r y, r ∈ results ∧ y ∈ default [] years
                ∧ (s = r +:+ str_of_int y ∨ s = str_of_int y +:+ r)).
Proof.
  unfold augment. destruct append_years, years as [[|y ys]|]; simpl.
  - split; [by left | intros [?|(_ & r & y & _ & ?%elem_of_nil & _)]; done].
  - rewrite elem_of_union, elem_of_list_to_set, elem_of_year_forms_iff.
    split; (intros [?|?]; [by left | right]); [done | tauto].
  - split; [by left | intros [?|(_ & r & y & _ & ?%elem_of_nil & _)]; done].
  - split; [by left | intros [?|[? _]]; done].
  - split; [by left | intros [?|[? _]]; done].
  - split; [by left | intros [?|[? _]]; done].
Qed.

(** X7. With [append_years] set, every candidate appears with every year of
    the list behind it and in front of it. *)
Theorem word_variants_year_forms
    (base_words : list string) (years : list Z) (leet : bool)
    (separators : option (list string)) (r : string) (y : Z) :
  r ∈ word_variants base_words None leet false separators →
  y ∈ years →
  r +:+ str_of_int y ∈ word_variants base_words (Some years) leet true separators
  ∧ str_of_int y +:+ r
    ∈ word_variants base_words (Some years) leet true separators.
Proof.
  unfold word_variants. intros Hr Hy.
  apply elem_of_augment in Hr as [Hr|[? _]]; [|done].
  split; apply elem_of_augment; right; (split; [done|]); exists r, y;
    (split_and!; [done | done |]); [by left | by right].
Qed.

(** X8. Adding base words, or switching [leet] on, never removes a
    candidate. *)
Theorem word_variants_mono
    (base_words base_words' : list string) (years : option (list Z))
    (leet leet' append_years : bool) (separators : option (list string)) :
  (∀ w, w ∈ base_words → w ∈ base_words') →
  (leet = true → leet' = true) →
  word_variants base_words years leet append_years separators
  ⊆ word_variants base_words' years leet' append_years separators.
Proof.
  intros Hbase Hleet.
  assert (Hpool : variant_pool base_words leet ⊆ variant_pool base_words' leet').
  { intros x (w & Hw & Hx)%elem_of_variant_pool.
    apply elem_of_variant_pool. exists w. split; [by apply Hbase|].
    destruct Hx as [?|[? ?]]; [by left | right; auto]. }
  assert (Hcomb : ∀ seps, combiner (variant_pool base_words leet) seps
                          ⊆ combiner (variant_pool base_words' leet') seps).
  { intros seps x (combo & sep & [??] & ? & Hsub & ? & ?)%elem_of_combiner.
    apply elem_of_combiner. exists combo, sep.
    split_and!; [done | done | done | | done | done].
    intros z Hz. by apply Hpool, Hsub. }
  unfold word_variants. intros s Hs.
  apply elem_of_augment in Hs. apply elem_of_augment.
  destruct Hs as [Hs|(Happ & r & y & Hr & Hy & Hs)].
  - left. by apply Hcomb.
  - right. split; [done|]. exists r, y. split_and!; [by apply Hcomb | done..].
Qed.

End candidates.

(** ** The candidate set does not depend on the iteration order *)

Lemma leet_list_same_case (R1 R2 : PyRuntime) word v :
  same_case_mappings R1 R2 →
  v ∈ @leet_list R1 word → v ∈ @leet_list R2 word.
Proof.
  intros Hsame Hv. apply elem_of_leet_list in Hv. apply elem_of_leet_list.
  eapply Forall2_impl; [exact Hv|]. intros ch c Hch.
  unfold leet_choices in *. by destruct (Hsame c) as (<- & _).
Qed.

Lemma variant_pool_same_case (R1 R2 : PyRuntime) base_words leet :
  same_case_mappings R1 R2 →
  @variant_pool R1 base_words leet ⊆ @variant_pool R2 base_words leet.
Proof.
  intros Hsame x (w & Hw & Hx)%elem_of_variant_pool.
  apply elem_of_variant_pool. exists w. split; [done|].
  assert (Hcase : @case_variants R1 w = @case_variants R2 w).
  { unfold case_variants. by destruct (Hsame w) as (-> & -> & ->). }
  rewrite <- Hcase. destruct Hx as [?|[? (v & Hv & Hx)]]; [by left|].
  right. split; [done|]. exists v. split; [done|].
  unfold leetspeak_variants in *. rewrite elem_of_list_to_set in Hx.
  rewrite elem_of_list_to_set.
  exact (leet_list_same_case R1 R2 v x Hsame Hx).
Qed.

Lemma word_variants_same_case (R1 R2 : PyRuntime)
    base_words years leet append_years separators :
  same_case_mappings R1 R2 →
  @word_variants R1 base_words years leet append_years separators
  ⊆ @word_variants R2 base_words years leet append_years separators.
Proof.
  intros Hsame.
  assert (Hcomb : ∀ seps,
    @combiner R1 (@variant_pool R1 base_words leet) seps
    ⊆ @combiner R2 (@variant_pool R2 base_words leet) seps).
  { intros seps x (combo & sep & [??] & ? & Hsub & ? & ?)%elem_of_combiner.
    apply elem_of_combiner. exists combo, sep.
    split_and!; [done | done | done | | done | done].
    intros z Hz.
    exact (variant_pool_same_case R1 R2 base_words leet Hsame z (Hsub z Hz)). }
  unfold word_variants. intros s Hs.
  apply elem_of_augment in Hs. apply elem_of_augment.
  destruct Hs as [Hs|(Happ & r & y & Hr & Hy & Hs)].
  - left. by apply Hcomb.
  - right. split; [done|]. exists r, y. split_and!; [by apply Hcomb | done..].
Qed.

Lemma same_case_mappings_sym (R1 R2 : PyRuntime) :
  same_case_mappings R1 R2 → same_case_mappings R2 R1.
Proof. intros Hsame s. by destruct (Hsame s) as (-> & -> & ->). Qed.

(** X9. The candidate set is the same under every iteration order of the
    sets involved: two runtimes with the same case mappings compute the same
    [word_variants]. *)
Theorem word_variants_order_independent (R1 R2 : PyRuntime)
    (base_words : list string) (years : option (list Z))
    (leet append_years : bool) (separators : option (list string)) :
  same_case_mappings R1 R2 →
  @word_variants R1 base_words years leet append_years separators
  = @word_variants R2 base_words years leet append_years separators.
Proof.
  intros Hsame. apply set_eq. intros s. split.
  - by apply word_variants_same_case.
  - by apply word_variants_same_case, same_case_mappings_sym.
Qed.

Section capper_and_run.
Context `{!PyRuntime}.

(** ** Capper: the other values of the maximum *)

Lemma capper_unfold_negative wl max_size :
  (max_size < 0)%Z →
  capper wl max_size
  = list_to_set (take (Z.to_nat (Z.of_nat (size wl) + max_size)) (set_iter wl)).
Proof.
  intros Hm. unfold capper, slice_to.
  rewrite (bool_decide_eq_true_2 (max_size ≠ 0%Z)) by lia.
  rewrite (bool_decide_eq_true_2 (max_size < Z.of_nat (size wl))%Z) by lia.
  simpl. rewrite decide_False by lia. by rewrite length_set_iter.
Qed.

(** X10. A negative maximum does not mean "no limit": it drops that many
    words, the last ones of the iteration order, and all of them when the
    set has no more than that. *)
Theorem capper_negative (wl : gset string) (max_size : Z) :
  (max_size < 0)%Z →
  size (capper wl max_size) = Z.to_nat (Z.of_nat (size wl) + max_size)
  ∧ ((Z.of_nat (size wl) ≤ - max_size)%Z → capper wl max_size = ∅).
Proof.
  intros Hm. rewrite capper_unfold_negative by done. split.
  - rewrite size_take_set_iter. lia.
  - intros Hle. replace (Z.to_nat (Z.of_nat (size wl) + max_size)) with 0 by lia.
    done.
Qed.

Lemma capper_subseteq_any wl max_size : capper wl max_size ⊆ wl.
Proof.
  destruct (decide (0 ≤ max_size)%Z) as [Hm|Hm]; [by apply capper_subseteq|].
  rewrite capper_unfold_negative by lia. intros x Hx.
  apply elem_of_list_to_set, elem_of_take in Hx as (i & Hi & _).
  eapply elem_of_set_iter, list_elem_of_lookup_2, Hi.
Qed.

(** X11. Whatever the maximum, the Capper only removes words: every word of
    a run is a candidate of [word_variants], and there are no more of them
    than candidates. *)
Theorem capper_subset (args : Args) (years : list Z) :
  let candidates :=
    word_variants (base_of args)
      (if arg_append_years args then Some years else None)
      (arg_leet args) (arg_append_years args) None in
  wordlist_of args years ⊆ candidates
  ∧ size (wordlist_of args years) ≤ size candidates.
Proof.
  intros candidates.
  assert (Hsub : wordlist_of args years ⊆ candidates)
    by apply capper_subseteq_any.
  split; [done | by apply subseteq_size].
Qed.

(** ** The run as a whole *)

Lemma base_of_nil_iff args :
  base_of args = []
  ↔ truthy (arg_name args) = false ∧ truthy (arg_pet args) = false
    ∧ truthy (arg_birth args) = false ∧ truthy (arg_keyword args) = false.
Proof.
  unfold base_of. simpl.
  destruct (truthy (arg_name args)), (truthy (arg_pet args)),
    (truthy (arg_birth args)), (truthy (arg_keyword args)); simpl;
    split; try done; by intros (? & ? & ? & ?).
Qed.

(** X12. A run is the no-op of the no-inputs message exactly when none of
    name, pet, birth and keyword is a non-empty string: an option given as
    the empty string counts as not given. *)
Theorem generate_noop_iff (args : Args) (w : World) :
  exec (generate_wordlist args) w
  = {| stdout := stdout w ++ [NoInputs]; files := files w |}
  ↔ truthy (arg_name args) = false ∧ truthy (arg_pet args) = false
    ∧ truthy (arg_birth args) = false ∧ truthy (arg_keyword args) = false.
Proof.
  rewrite <- base_of_nil_iff. split.
  - intros Hrun. destruct (decide (base_of args = [])) as [|Hbase]; [done|].
    rewrite generate_wordlist_base in Hrun by done.
    apply (f_equal stdout) in Hrun. simpl in Hrun.
    rewrite read_years_spec in Hrun. simpl in Hrun.
    apply (f_equal (λ l, last l)) in Hrun.
    rewrite !last_app in Hrun. by simpl in Hrun.
  - apply generate_wordlist_no_base.
Qed.

(** X13. A run writes at most one file, the output path: every other file
    keeps its content, and what was printed before stays printed. *)
Theorem generate_touches_only_out_path (args : Args) (w : World) (p : string) :
  p ≠ out_path_of args →
  files (exec (generate_wordlist args) w) !! p = files w !! p
  ∧ stdout w `prefix_of` stdout (exec (generate_wordlist args) w).
Proof.
  intros Hp. destruct (decide (base_of args = [])) as [Hbase|Hbase].
  - rewrite generate_wordlist_no_base by done. simpl.
    split; [done | by apply prefix_app_r].
  - rewrite generate_wordlist_base by done. rewrite read_years_spec. simpl.
    rewrite lookup_insert_ne by done.
    destruct (truthy (arg_years args)); [destruct (parse_years _)|]; simpl;
      (split; [done|]); rewrite <- ?(assoc_L (++)); by apply prefix_app_r.
Qed.

(** X14. Without [--append-years] the [--years] option changes no word: the
    files after the run are those of the run without [--years] (only the
    invalid-range warning may differ). *)
Theorem years_without_append_years (args : Args) (w : World) :
  arg_append_years args = false →
  files (exec (generate_wordlist args) w)
  = files (exec (generate_wordlist (with_years None args)) w).
Proof.
  intros Happ. destruct (decide (base_of args = [])) as [Hbase|Hbase].
  - by rewrite !generate_wordlist_no_base.
  - rewrite generate_wordlist_base by done.
    rewrite (generate_wordlist_base (with_years None args)) by done.
    rewrite !read_years_spec. simpl.
    assert (Hwl : ∀ years, wordlist_of args years
                           = wordlist_of (with_years None args) []).
    { intros years. unfold wordlist_of. simpl. by rewrite Happ. }
    rewrite (Hwl (years_of args)).
    change (years_of (with_years None args)) with (@nil Z).
    by destruct (truthy (arg_years args)); [destruct (parse_years _)|].
Qed.

(** X15. The count printed last is the number of words of the final set,
    each written once, in ascending order, followed by a newline; for a
    positive maximum it is at most the maximum; and when no word contains a
    newline it is the number of lines of the file. *)
Theorem generate_count_bounded (args : Args) (w : World) :
  base_of args ≠ [] →
  let wl := wordlist_of args (years_of args) in
  let words := sorted (set_iter wl) in
  files (exec (generate_wordlist args) w) !! out_path_of args
    = Some (unlines words)
  ∧ last (stdout (exec (generate_wordlist args) w))
    = Some (Generated (size wl) (out_path_of args))
  ∧ NoDup words ∧ length words = size wl
  ∧ ((0 < arg_max_size args)%Z → (Z.of_nat (size wl) ≤ arg_max_size args)%Z)
  ∧ ((∀ x, x ∈ wl → has_char (ascii_of_nat 10) x = false)
     → length (str_split (ascii_of_nat 10) (unlines words)) = S (size wl)).
Proof.
  intros Hbase wl words.
  destruct (sorted_spec (set_iter wl)) as [_ Hperm]. fold words in Hperm.
  assert (Hlen : length words = size wl)
    by by rewrite Hperm, length_set_iter.
  rewrite generate_wordlist_base by done. simpl. split_and!.
  - by rewrite lookup_insert_eq, wordlist_text_unlines.
  - by rewrite last_app.
  - rewrite Hperm. apply NoDup_set_iter.
  - done.
  - intros Hm. unfold wl, wordlist_of. rewrite size_capper by done. lia.
  - intros Hclean. rewrite str_split_unlines.
    + rewrite length_app, Hlen. simpl. lia.
    + apply Forall_forall. intros x Hx. apply Hclean.
      rewrite Hperm in Hx. by apply elem_of_set_iter.
Qed.

End capper_and_run.

(** ** What the iteration order can and cannot change in a run *)

Lemma sorted_order_independent (R1 R2 : PyRuntime) (wl : gset string) :
  sorted (@set_iter R1 wl) = sorted (@set_iter R2 wl).
Proof.
  destruct (sorted_spec (@set_iter R1 wl)) as [Hs1 Hp1].
  destruct (sorted_spec (@set_iter R2 wl)) as [Hs2 Hp2].
  apply (Sorted_unique String.le); [by apply StronglySorted_Sorted..|].
  by rewrite Hp1, Hp2, !set_iter_perm.
Qed.

Lemma parse_years_same_int (R1 R2 : PyRuntime) s :
  same_int R1 R2 → @parse_years R1 s = @parse_years R2 s.
Proof.
  intros Hint. unfold parse_years.
  destruct (str_split "-" s) as [|a [|b [|c pieces]]]; try done.
  by rewrite !Hint.
Qed.

(** X16. As long as the cap does not cut (the maximum is 0, or the candidate
    set is within it), a run prints and writes the same under every
    iteration order: the order only matters through the Capper. *)
Theorem generate_order_independent (R1 R2 : PyRuntime) (args : Args) (w : World) :
  same_case_mappings R1 R2 → same_int R1 R2 →
  (arg_max_size args = 0
   ∨ Z.of_nat (size (@word_variants R1 (base_of args)
                       (if arg_append_years args
                        then Some (@years_of R1 args) else None)
                       (arg_leet args) (arg_append_years args) None))
     ≤ arg_max_size args)%Z →
  exec (@generate_wordlist R1 args) w = exec (@generate_wordlist R2 args) w.
Proof.
  intros Hcase Hint Hcap.
  destruct (decide (base_of args = [])) as [Hbase|Hbase].
  { by rewrite !generate_wordlist_no_base. }
  assert (Hparse : ∀ s, @parse_years R1 s = @parse_years R2 s)
    by (intros s; by apply parse_years_same_int).
  assert (Hyears : @years_of R1 args = @years_of R2 args).
  { unfold years_of. by rewrite Hparse. }
  assert (Hwl : @wordlist_of R1 args (@years_of R1 args)
                = @wordlist_of R2 args (@years_of R2 args)).
  { unfold wordlist_of. rewrite <- Hyears.
    set (years := if arg_append_years args
                  then Some (@years_of R1 args) else None) in *.
    assert (Hsame : @word_variants R1 (base_of args) years (arg_leet args)
                      (arg_append_years args) None
                    = @word_variants R2 (base_of args) years (arg_leet args)
                        (arg_append_years args) None).
    { apply set_eq. intros s. split.
      - by apply word_variants_same_case.
      - by apply word_variants_same_case, same_case_mappings_sym. }
    rewrite <- Hsame. by rewrite !capper_unfold_pass. }
  rewrite !generate_wordlist_base by done.
  rewrite !read_years_spec, Hwl, Hparse. simpl.
  unfold wordlist_text. by rewrite (sorted_order_independent R1 R2).
Qed.

Section format_and_years.
Context `{!PyRuntime}.

(** ** Reading the file back *)

(** X17. When no word of the final set contains a newline, splitting the
    written file at the newlines gives the words in ascending order followed
    by one empty piece: one word per line, nothing after the last line. *)
Theorem wordlist_file_read_back (args : Args) (w : World) :
  base_of args ≠ [] →
  (∀ x, x ∈ wordlist_of args (years_of args)
        → has_char (ascii_of_nat 10) x = false) →
  ∃ text,
    files (exec (generate_wordlist args) w) !! out_path_of args = Some text
    ∧ str_split (ascii_of_nat 10) text
      = sorted (set_iter (wordlist_of args (years_of args))) ++ [""].
Proof.
  intros Hbase Hclean. set (wl := wordlist_of args (years_of args)) in *.
  exists (wordlist_text wl). split.
  - rewrite generate_wordlist_base by done. simpl. by rewrite lookup_insert_eq.
  - rewrite wordlist_text_unlines. apply str_split_unlines.
    apply Forall_forall. intros x Hx. apply Hclean.
    destruct (sorted_spec (set_iter wl)) as [_ Hperm].
    rewrite Hperm in Hx. by apply elem_of_set_iter.
Qed.

(** ** The year range *)

Lemma elem_of_range (a b y : Z) : y ∈ range a b ↔ (a ≤ y < b)%Z.
Proof.
  unfold range. rewrite list_elem_of_fmap. split.
  - intros (i & -> & Hi%elem_of_seq). lia.
  - intros Hy. exists (Z.to_nat (y - a)). split; [lia|].
    apply elem_of_seq. lia.
Qed.

Lemma NoDup_range (a b : Z) : NoDup (range a b).
Proof.
  unfold range. apply NoDup_fmap_2; [|apply NoDup_seq].
  intros i j Hij. lia.
Qed.

Lemma length_split_go sep s : ∀ cur,
  length (split_go sep cur s) = S (count_char sep s).
Proof.
  induction s as [|a s IH]; intros cur; simpl; [done|].
  destruct (decide (a = sep)); simpl; by rewrite IH.
Qed.

(** X18. A year range that parses is the list of all integers from start
    to end, each once; it has end - start + 1 years, and none when end is
    below start. *)
Theorem parse_years_range (s : string) (years : list Z) :
  parse_years s = Some years →
  ∃ a b start end_,
    str_split "-" s = [a; b] ∧ py_int a = Some start ∧ py_int b = Some end_
    ∧ (∀ y, y ∈ years ↔ (start ≤ y ≤ end_)%Z)
    ∧ NoDup years
    ∧ length years = Z.to_nat (end_ + 1 - start).
Proof.
  unfold parse_years. intros Hparse.
  destruct (str_split "-" s) as [|a [|b [|c pieces]]]; try done.
  destruct (py_int a) as [start|] eqn:Ha; [|done].
  destruct (py_int b) as [end_|] eqn:Hb; [|done].
  simpl in Hparse. injection Hparse as <-.
  exists a, b, start, end_. split_and!; [done..| | |].
  - intros y. rewrite elem_of_range. lia.
  - apply NoDup_range.
  - unfold range. by rewrite length_fmap, length_seq.
Qed.

(** X19. Only a value with exactly one dash can parse: a range with a
    negative year, or with none or several dashes, is rejected whatever
    [int] accepts. *)
Theorem parse_years_one_dash (s : string) :
  count_char "-" s ≠ 1 → parse_years s = None.
Proof.
  intros Hcount. unfold parse_years.
  pose proof (length_split_go "-" s EmptyString) as Hlen.
  fold (str_split "-" s) in Hlen.
  destruct (str_split "-" s) as [|a [|b [|c pieces]]]; try done.
  simpl in Hlen. lia.
Qed.

End format_and_years.

Section nonempty_and_sizes.
Context `{R : !PyRuntime}.

(** ** No empty word *)

Lemma string_app_nonempty_l (s t : string) : s ≠ "" → s +:+ t ≠ "".
Proof. by destruct s. Qed.

Lemma string_app_nonempty_r (s t : string) : t ≠ "" → s +:+ t ≠ "".
Proof. destruct s; [done|]. by intros _. Qed.

Lemma concat_nonempty sep (combo : list string) :
  1 ≤ length combo → (∀ y, y ∈ combo → y ≠ "") → String.concat sep combo ≠ "".
Proof.
  intros Hlen Hne. destruct combo as [|y [|z combo]]; [simpl in Hlen; lia | |].
  - simpl. apply Hne. left.
  - change (y +:+ sep +:+ String.concat sep (z :: combo) ≠ "").
    apply string_app_nonempty_l, Hne. left.
Qed.

Lemma base_of_nonempty args x : x ∈ base_of args → x ≠ "".
Proof.
  revert x. apply Forall_forall. unfold base_of. simpl.
  destruct (arg_name args) as [[|??]|], (arg_pet args) as [[|??]|],
    (arg_birth args) as [[|??]|], (arg_keyword args) as [[|??]|];
    simpl; by repeat constructor.
Qed.

Lemma variant_pool_nonempty base_words leet x :
  keeps_nonempty R → (∀ w, w ∈ base_words → w ≠ "") →
  x ∈ variant_pool base_words leet → x ≠ "".
Proof.
  intros Hkeep Hbase (w & Hw & Hx)%elem_of_variant_pool.
  assert (Hcase : ∀ v, v ∈ case_variants w → v ≠ "").
  { intros v Hv. destruct (Hkeep w (Hbase w Hw)) as (? & ? & ?).
    pose proof (Hbase w Hw). unfold case_variants in Hv.
    repeat (apply elem_of_union in Hv as [Hv|Hv]);
      apply elem_of_singleton in Hv; by subst. }
  destruct Hx as [Hx|[_ (v & Hv & Hx)]]; [by apply Hcase|].
  apply elem_of_list_to_set, elem_of_leet_list, Forall2_length in Hx.
  rewrite !length_chars in Hx. pose proof (Hcase v Hv) as Hvne.
  intros ->. by destruct v.
Qed.

(** X20. With case mappings that keep non-empty strings non-empty, the
    empty string is never a word of a run; and when, besides, no word
    contains a newline, no line of the written file is blank. *)
Theorem wordlist_has_no_empty_word (args : Args) (years : list Z) :
  keeps_nonempty R →
  ("" ∉ wordlist_of args years)
  ∧ ((∀ x, x ∈ wordlist_of args years → has_char (ascii_of_nat 10) x = false)
     → ∀ lines,
         str_split (ascii_of_nat 10) (wordlist_text (wordlist_of args years))
           = lines ++ [""]
         → "" ∉ lines).
Proof.
  intros Hkeep.
  assert (Hword : "" ∉ wordlist_of args years).
  { intros Hin. apply capper_subseteq_any in Hin.
    unfold word_variants in Hin. apply elem_of_augment in Hin.
    assert (Hcand : ∀ r,
      r ∈ combiner (variant_pool (base_of args) (arg_leet args))
            (default default_separators None) → r ≠ "").
    { intros r (combo & sep & [Hlen _] & _ & Hsub & _ & ->)%elem_of_combiner.
      apply concat_nonempty; [done|]. intros y Hy.
      eapply variant_pool_nonempty;
        [done | apply base_of_nonempty | by apply Hsub]. }
    destruct Hin as [Hin|(_ & r & y & Hr & _ & Hs)].
    - by apply (Hcand "").
    - apply Hcand in Hr. destruct Hs as [Hs|Hs]; symmetry in Hs.
      + by apply string_app_nonempty_l in Hs.
      + by apply string_app_nonempty_r in Hs. }
  split; [done|]. intros Hclean lines Hsplit.
  set (wl := wordlist_of args years) in *.
  destruct (sorted_spec (set_iter wl)) as [_ Hperm].
  rewrite wordlist_text_unlines, str_split_unlines in Hsplit.
  - apply app_inj_tail in Hsplit as [<- _].
    rewrite Hperm, elem_of_set_iter. done.
  - apply Forall_forall. intros x Hx. apply Hclean.
    rewrite Hperm in Hx. by apply elem_of_set_iter.
Qed.

(** ** Sizes of the case expansion and of the pool *)

Lemma size_union_le (X Y : gset string) : size (X ∪ Y) ≤ size X + size Y.
Proof.
  rewrite size_union_alt.
  assert (size (Y ∖ X) ≤ size Y); [|lia].
  apply subseteq_size, subseteq_difference_l. done.
Qed.

Lemma size_case_variants w : 1 ≤ size (case_variants w) ≤ 4.
Proof.
  unfold case_variants. split.
  - assert (size (case_variants w) ≠ 0); [|unfold case_variants in *; lia].
    apply size_non_empty_iff. intros Hempty.
    assert (w ∈ case_variants w) as Hw
      by (unfold case_variants; do 3 apply elem_of_union_l;
          by apply elem_of_singleton).
    rewrite Hempty in Hw. by apply not_elem_of_empty in Hw.
  - pose proof (size_union_le ({[w]} ∪ {[str_lower w]} ∪ {[str_title w]})
                               {[str_upper w]}) as H3.
    pose proof (size_union_le ({[w]} ∪ {[str_lower w]}) {[str_title w]}) as H2.
    pose proof (size_union_le {[w]} {[str_lower w]}) as H1.
    rewrite !size_singleton in *. lia.
Qed.

Lemma size_foldl_pool_step ws : ∀ variants,
  size (foldl (pool_step false) variants ws) ≤ size variants + 4 * length ws.
Proof.
  induction ws as [|w ws IH]; intros variants; simpl; [lia|].
  etrans; [apply IH|]. unfold pool_step.
  pose proof (size_union_le variants (case_variants w)).
  pose proof (size_case_variants w). lia.
Qed.

(** X21. Case expansion gives between one and four forms of a word, so
    without [leet] the pool of n base words has at most 4n elements. *)
Theorem variant_pool_size (base_words : list string) (w : string) :
  1 ≤ size (case_variants w) ≤ 4
  ∧ size (variant_pool base_words false) ≤ 4 * length base_words.
Proof.
  split; [apply size_case_variants|].
  unfold variant_pool. etrans; [apply size_foldl_pool_step|].
  rewrite size_empty. lia.
Qed.

End nonempty_and_sizes.

Section password_analysis.
Context `{!CharClasses}.

(** ** [entropy]: the character set and the key space *)

Lemma any_char_false test password :
  any_char test password = false
  ↔ Forall (λ c, test c = false) (chars password).
Proof.
  unfold any_char. induction (chars password) as [|c cs IH]; simpl.
  - split; [constructor | done].
  - rewrite orb_false_iff, IH, Forall_cons. done.
Qed.

Lemma any_char_app test s t :
  any_char test (s +:+ t) = any_char test s || any_char test t.
Proof. unfold any_char. by rewrite chars_app, existsb_app. Qed.

Lemma charset_zero_iff password :
  charset password = 0 ↔ Forall unclassified (chars password).
Proof.
  unfold charset, unclassified. rewrite !Forall_and.
  rewrite <- !any_char_false.
  destruct (any_char str_islower password), (any_char str_isupper password),
    (any_char str_isdigit password), (any_char is_punctuation password);
    simpl; split; try done; try lia; by intros (? & ? & ? & ?).
Qed.

Lemma charset_bounds password :
  charset password = 0 ∨ 10 ≤ charset password ≤ 94.
Proof.
  unfold charset.
  destruct (any_char str_islower password), (any_char str_isupper password),
    (any_char str_isdigit password), (any_char is_punctuation password);
    simpl; lia.
Qed.

Lemma charset_app_le s t :
  charset s ≤ charset (s +:+ t) ∧ charset t ≤ charset (s +:+ t).
Proof.
  unfold charset. rewrite !any_char_app.
  destruct (any_char str_islower s), (any_char str_isupper s),
    (any_char str_isdigit s), (any_char is_punctuation s),
    (any_char str_islower t), (any_char str_isupper t),
    (any_char str_isdigit t), (any_char is_punctuation t); simpl; lia.
Qed.

(** X22. [entropy] returns 0 exactly when no character of the password is
    lower case, upper case, a digit or listed punctuation; the empty
    password is such a password. *)
Theorem entropy_zero_iff (password : string) :
  (entropy password = ZeroBits ↔ Forall unclassified (chars password))
  ∧ entropy "" = ZeroBits.
Proof.
  split; [|done]. rewrite <- charset_zero_iff. unfold entropy.
  destruct (charset password =? 0) eqn:Hc.
  - apply Nat.eqb_eq in Hc. done.
  - apply Nat.eqb_neq in Hc. done.
Qed.

(** X23. When [entropy] takes a logarithm, the password has n >= 1
    characters and the number it is taken of lies between 10^n and 94^n:
    never 0, so the logarithm is defined. *)
Theorem entropy_keyspace_bounds (password : string) (keyspace : Z) :
  entropy password = RoundedLog2 keyspace →
  let n := Z.of_nat (String.length password) in
  (1 ≤ n ∧ 10 ^ n ≤ keyspace ≤ 94 ^ n)%Z.
Proof.
  intros He n. unfold entropy in He.
  destruct (charset password =? 0) eqn:Hc; [done|].
  apply Nat.eqb_neq in Hc. injection He as <-.
  destruct (charset_bounds password) as [?|Hb]; [done|].
  split.
  - assert (String.length password ≠ 0); [|lia].
    intros Hlen. apply Hc, charset_zero_iff.
    destruct password; [constructor | done].
  - split; apply Z.pow_le_mono_l; lia.
Qed.

(** X24. Appending characters never lowers the character set, and never
    the key space: a longer password is never rated on a smaller number. *)
Theorem entropy_append_mono (s t : string) (keyspace : Z) :
  entropy s = RoundedLog2 keyspace →
  charset s ≤ charset (s +:+ t)
  ∧ ∃ keyspace', entropy (s +:+ t) = RoundedLog2 keyspace'
                 ∧ (keyspace ≤ keyspace')%Z.
Proof.
  unfold entropy. intros He.
  destruct (charset s =? 0) eqn:Hc; [done|].
  apply Nat.eqb_neq in Hc. injection He as <-.
  destruct (charset_app_le s t) as [Hle _]. split; [done|].
  destruct (charset (s +:+ t) =? 0) eqn:Hc'; [apply Nat.eqb_eq in Hc'; lia|].
  eexists. split; [done|]. rewrite string_length_app.
  etrans; [apply Z.pow_le_mono_l|apply Z.pow_le_mono_r]; lia.
Qed.

(** ** The strength label *)

Lemma below_mono e1 e2 n :
  QArith_base.Qle e1 e2 → below e2 n = true → below e1 n = true.
Proof.
  unfold below. rewrite !negb_true_iff. intros Hle He2.
  destruct (QArith_base.Qle_bool (QArith_base.inject_Z n) e1) eqn:He1; [|done].
  apply QArith_base.Qle_bool_iff in He1.
  assert (QArith_base.Qle_bool (QArith_base.inject_Z n) e2 = true); [|congruence].
  apply QArith_base.Qle_bool_iff. by eapply QArith_base.Qle_trans.
Qed.

(** X25. The label never gets weaker as the entropy grows. *)
Theorem strength_label_mono (e1 e2 : QArith_base.Q) :
  QArith_base.Qle e1 e2 →
  strength_rank (strength_label e1) ≤ strength_rank (strength_label e2).
Proof.
  intros Hle. unfold strength_label.
  pose proof (below_mono e1 e2 28 Hle). pose proof (below_mono e1 e2 36 Hle).
  pose proof (below_mono e1 e2 60 Hle). pose proof (below_mono e1 e2 128 Hle).
  destruct (below e2 28), (below e2 36), (below e2 60), (below e2 128);
    repeat match goal with
           | Hb : true = true → _ |- _ => rewrite (Hb eq_refl); clear Hb
           end; simpl; try lia;
    destruct (below e1 28), (below e1 36), (below e1 60), (below e1 128);
    simpl; lia.
Qed.

(** X26. A password without any character of the four classes is rated
    Very Weak, however long it is and whatever the logarithm would give. *)
Theorem analyze_label_unclassified
    (log2_round2 : Z → QArith_base.Q) (password : string) :
  Forall unclassified (chars password) →
  analyze_label log2_round2 password = VeryWeak.
Proof.
  intros Hun. apply charset_zero_iff in Hun.
  unfold analyze_label, entropy. rewrite Hun. done.
Qed.

End password_analysis.

(** ** The further theorems at sample inputs *)

Lemma leetspeak_variants_length_witness :
  "7357" ∈ @leetspeak_variants ascending_runtime "Test"
  ∧ String.length "7357" = String.length "Test".
Proof.
  assert (Hin : "7357" ∈ @leetspeak_variants ascending_runtime "Test")
    by (apply (bool_decide_unpack _); by vm_compute).
  split; [exact Hin|].
  apply (@leetspeak_variants_length ascending_runtime "Test" "7357" Hin).
Defined.

Lemma word_variants_year_forms_witness :
  "Max" ∈ @word_variants ascending_runtime ["Max"] None false false None
  ∧ 2020%Z ∈ [2020%Z; 2021%Z]
  ∧ "Max" +:+ str_of_int 2020
    ∈ @word_variants ascending_runtime ["Max"] (Some [2020%Z; 2021%Z])
        false true None
  ∧ str_of_int 2020 +:+ "Max"
    ∈ @word_variants ascending_runtime ["Max"] (Some [2020%Z; 2021%Z])
        false true None.
Proof.
  assert (Hr : "Max" ∈ @word_variants ascending_runtime ["Max"] None
                         false false None)
    by (apply (bool_decide_unpack _); by vm_compute).
  assert (Hy : 2020%Z ∈ [2020%Z; 2021%Z]) by left.
  split; [exact Hr|]. split; [exact Hy|].
  apply (@word_variants_year_forms ascending_runtime ["Max"] [2020%Z; 2021%Z]
           false None "Max" 2020%Z Hr Hy).
Defined.

Lemma word_variants_mono_witness :
  (∀ w : string, w ∈ ["Max"] → w ∈ ["Max"; "Rex"])
  ∧ (false = true → true = true)
  ∧ @word_variants ascending_runtime ["Max"] None false false None
    ⊆ @word_variants ascending_runtime ["Max"; "Rex"] None true false None.
Proof.
  assert (Hbase : ∀ w : string, w ∈ ["Max"] → w ∈ ["Max"; "Rex"]).
  { intros w Hw. apply list_elem_of_singleton in Hw. subst w. left. }
  assert (Hleet : false = true → true = true) by done.
  split; [exact Hbase|]. split; [exact Hleet|].
  apply (@word_variants_mono ascending_runtime ["Max"] ["Max"; "Rex"] None
           false true false None Hbase Hleet).
Defined.

Lemma word_variants_order_independent_witness :
  same_case_mappings ascending_runtime descending_runtime
  ∧ @word_variants ascending_runtime ["Max"] (Some [2020%Z]) true true None
    = @word_variants descending_runtime ["Max"] (Some [2020%Z]) true true None.
Proof.
  assert (Hsame : same_case_mappings ascending_runtime descending_runtime)
    by (intros s; repeat split; reflexivity).
  split; [exact Hsame|].
  apply (word_variants_order_independent ascending_runtime descending_runtime
           ["Max"] (Some [2020%Z]) true true None Hsame).
Defined.

Lemma capper_negative_witness :
  (-1 < 0)%Z
  ∧ size (@capper ascending_runtime abc (-1))
    = Z.to_nat (Z.of_nat (size abc) + -1)
  ∧ ((Z.of_nat (size abc) ≤ - -1)%Z → @capper ascending_runtime abc (-1) = ∅).
Proof.
  assert (Hm : (-1 < 0)%Z) by done.
  split; [exact Hm|].
  apply (@capper_negative ascending_runtime abc (-1) Hm).
Defined.

Lemma generate_touches_only_out_path_witness :
  "other.txt" ≠ out_path_of args_max
  ∧ files (exec (@generate_wordlist ascending_runtime args_max) empty_world)
      !! "other.txt" = files empty_world !! "other.txt"
  ∧ stdout empty_world
    `prefix_of`
    stdout (exec (@generate_wordlist ascending_runtime args_max) empty_world).
Proof.
  assert (Hp : "other.txt" ≠ out_path_of args_max) by done.
  split; [exact Hp|].
  apply (@generate_touches_only_out_path ascending_runtime args_max
           empty_world "other.txt" Hp).
Defined.

Lemma years_without_append_years_witness :
  arg_append_years args_years_only = false
  ∧ files (exec (@generate_wordlist ascending_runtime args_years_only)
             empty_world)
    = files (exec (@generate_wordlist ascending_runtime
                     (with_years None args_years_only)) empty_world).
Proof.
  split; [reflexivity|].
  apply (@years_without_append_years ascending_runtime args_years_only
           empty_world eq_refl).
Defined.

Lemma generate_count_bounded_witness :
  base_of args_max ≠ []
  ∧ files (exec (@generate_wordlist ascending_runtime args_max) empty_world)
      !! out_path_of args_max
    = Some (unlines (sorted (@set_iter ascending_runtime
                               (@wordlist_of ascending_runtime args_max
                                  (@years_of ascending_runtime args_max)))))
  ∧ last (stdout (exec (@generate_wordlist ascending_runtime args_max)
                    empty_world))
    = Some (Generated
              (size (@wordlist_of ascending_runtime args_max
                       (@years_of ascending_runtime args_max)))
              (out_path_of args_max)).
Proof.
  assert (Hbase : base_of args_max ≠ []) by done.
  split; [exact Hbase|].
  destruct (@generate_count_bounded ascending_runtime args_max empty_world
              Hbase) as (Hfile & Hlast & _).
  split; [exact Hfile | exact Hlast].
Defined.

Lemma generate_order_independent_witness :
  same_case_mappings ascending_runtime descending_runtime
  ∧ same_int ascending_runtime descending_runtime
  ∧ exec (@generate_wordlist ascending_runtime args_max) empty_world
    = exec (@generate_wordlist descending_runtime args_max) empty_world.
Proof.
  assert (Hsame : same_case_mappings ascending_runtime descending_runtime)
    by (intros s; repeat split; reflexivity).
  assert (Hint : same_int ascending_runtime descending_runtime)
    by (intros s; reflexivity).
  split; [exact Hsame|]. split; [exact Hint|].
  apply (generate_order_independent ascending_runtime descending_runtime
           args_max empty_world Hsame Hint).
  right. vm_compute. discriminate.
Defined.

Lemma wordlist_file_read_back_witness :
  base_of args_max ≠ []
  ∧ ∃ text,
      files (exec (@generate_wordlist ascending_runtime args_max) empty_world)
        !! out_path_of args_max = Some text
      ∧ str_split (ascii_of_nat 10) text
        = sorted (@set_iter ascending_runtime
                    (@wordlist_of ascending_runtime args_max
                       (@years_of ascending_runtime args_max))) ++ [""].
Proof.
  assert (Hbase : base_of args_max ≠ []) by done.
  split; [exact Hbase|].
  apply (@wordlist_file_read_back ascending_runtime args_max empty_world Hbase).
  intros x Hx. apply elem_of_elements in Hx. revert x Hx.
  apply Forall_forall. apply (bool_decide_unpack _). by vm_compute.
Defined.

Lemma parse_years_range_witness :
  @parse_years ascending_runtime "2020-2021" = Some [2020%Z; 2021%Z]
  ∧ ∃ a b start end_,
      str_split "-" "2020-2021" = [a; b]
      ∧ @py_int ascending_runtime a = Some start
      ∧ @py_int ascending_runtime b = Some end_
      ∧ (∀ y, y ∈ [2020%Z; 2021%Z] ↔ (start ≤ y ≤ end_)%Z)
      ∧ NoDup [2020%Z; 2021%Z]
      ∧ length [2020%Z; 2021%Z] = Z.to_nat (end_ + 1 - start).
Proof.
  split; [reflexivity|].
  apply (@parse_years_range ascending_runtime "2020-2021" [2020%Z; 2021%Z]
           eq_refl).
Defined.

Lemma parse_years_one_dash_witness :
  count_char "-" "1990-2000-2010" ≠ 1
  ∧ @parse_years ascending_runtime "1990-2000-2010" = None.
Proof.
  assert (Hcount : count_char "-" "1990-2000-2010" ≠ 1) by done.
  split; [exact Hcount|].
  apply (@parse_years_one_dash ascending_runtime "1990-2000-2010" Hcount).
Defined.

Lemma wordlist_has_no_empty_word_witness :
  keeps_nonempty ascending_runtime
  ∧ ("" ∉ @wordlist_of ascending_runtime args_max [2020%Z; 2021%Z]).
Proof.
  assert (Hkeep : keeps_nonempty ascending_runtime).
  { intros [|a s] Hs; [done|]. simpl.
    split; [done|]. split; [|done].
    unfold AsciiText.ascii_title. simpl.
    by destruct (AsciiText.is_upper a || AsciiText.is_lower a). }
  split; [exact Hkeep|].
  apply (@wordlist_has_no_empty_word ascending_runtime args_max
           [2020%Z; 2021%Z] Hkeep).
Defined.

Lemma entropy_keyspace_bounds_witness :
  @entropy ascii_classes "Password1!" = RoundedLog2 (94 ^ 10)
  ∧ (1 ≤ Z.of_nat (String.length "Password1!")
     ∧ 10 ^ Z.of_nat (String.length "Password1!") ≤ 94 ^ 10
       ≤ 94 ^ Z.of_nat (String.length "Password1!"))%Z.
Proof.
  split; [reflexivity|].
  apply (@entropy_keyspace_bounds ascii_classes "Password1!" (94 ^ 10) eq_refl).
Defined.

Lemma entropy_append_mono_witness :
  @entropy ascii_classes "abc" = RoundedLog2 (26 ^ 3)
  ∧ @charset ascii_classes "abc" ≤ @charset ascii_classes ("abc" +:+ "1")
  ∧ ∃ keyspace',
      @entropy ascii_classes ("abc" +:+ "1") = RoundedLog2 keyspace'
      ∧ (26 ^ 3 ≤ keyspace')%Z.
Proof.
  split; [reflexivity|].
  apply (@entropy_append_mono ascii_classes "abc" "1" (26 ^ 3) eq_refl).
Defined.

Lemma strength_label_mono_witness :
  QArith_base.Qle (QArith_base.inject_Z 20) (QArith_base.inject_Z 40)
  ∧ strength_rank (strength_label (QArith_base.inject_Z 20))
    ≤ strength_rank (strength_label (QArith_base.inject_Z 40)).
Proof.
  assert (Hle : QArith_base.Qle (QArith_base.inject_Z 20)
                  (QArith_base.inject_Z 40))
    by (unfold QArith_base.Qle; simpl; lia).
  split; [exact Hle|].
  apply (strength_label_mono _ _ Hle).
Defined.

Lemma analyze_label_unclassified_witness :
  Forall (@unclassified ascii_classes) (chars "~~ ~~")
  ∧ ∀ log2_round2,
      @analyze_label ascii_classes log2_round2 "~~ ~~" = VeryWeak.
Proof.
  assert (Hun : Forall (@unclassified ascii_classes) (chars "~~ ~~"))
    by (repeat constructor).
  split; [exact Hun|]. intros log2_round2.
  apply (@analyze_label_unclassified ascii_classes log2_round2 "~~ ~~" Hun).
Defined.
